(** * pcap2har: the TLS flow's epoch rendezvous ([pcap2har/tls/flow.py])

    A shallow embedding of [Flow.__init__] and [Flow.next_connstate] over an
    explicit object store, and the properties of the rendezvous protocol by
    which the two [Direction]s of a flow obtain their halves of each
    connection-state period. *)

From stdpp Require Import base option list.

Set Default Proof Using "Type".

(** ** Objects and references

    Python objects are compared by identity ([is], and [in] on a tuple of
    plain objects), so every class instance lives in a store and is named by
    its index there. *)

Abbreviation dir_ref := nat (only parsing).
Abbreviation period_ref := nat (only parsing).
Abbreviation params_ref := nat (only parsing).
Abbreviation tcp_ref := nat (only parsing).

(** The two halves of a [tcp.Flow]: [tcpflow.fwd] and [tcpflow.rev]. *)
Inductive side := Forward | Reverse.

#[global] Instance side_eq_dec : EqDecision side.
Proof. solve_decision. Defined.

(** Modelled from the spec: [connectionstate.ConnStatePlex] is not part of the
    sources at hand. One direction's half of one epoch; its cryptographic
    contents are opaque to the coordinator, which leaves the owning epoch
    reference and the half it stands for. Two plexes are the same object
    exactly when both agree. *)
Record ConnStatePlex := mkPlex {
  plex_period : period_ref;
  plex_side : side
}.

#[global] Instance ConnStatePlex_eq_dec : EqDecision ConnStatePlex.
Proof. solve_decision. Defined.

(** Modelled from the spec: [connectionstate.ConnStatePeriod] is not part of
    the sources at hand. One epoch: its forward plex, its reverse plex and a
    reference to the epoch it supersedes ([None] for the first). *)
Record ConnStatePeriod := mkPeriod {
  period_fwd : ConnStatePlex;
  period_rev : ConnStatePlex;
  period_prev : option period_ref
}.

(** Modelled from the spec: [connectionstate.ConnectionStateParams] is not
    part of the sources at hand. A holder of negotiated parameters, unset
    until negotiated; the constructor's argument is kept as given. *)
Record ConnectionStateParams := mkParams {
  params_arg : option nat;
  params_cipher_suite : option nat;
  params_key_material : option nat
}.

(** Modelled from the spec: [tls.direction.Direction] is not part of the
    sources at hand. One side's pipeline: the TCP half-flow it reads and the
    plex currently in use. *)
Record Direction := mkDirection {
  dir_tcpflow : tcp_ref;
  dir_tcpdir : side;
  dir_connstate : option ConnStatePlex
}.

(** The attributes of the [Flow] object together with the object store. *)
Record World := mkWorld {
  tcpflow : tcp_ref;
  pending_params : params_ref;
  connstate : option period_ref;
  pending_connstate : option period_ref;
  old_states : list period_ref;
  fwd : dir_ref;
  rev : dir_ref;
  heap_periods : list ConnStatePeriod;
  heap_params : list ConnectionStateParams;
  heap_dirs : list Direction
}.

(** The objects that exist before a [Flow] is built. *)
Record Heap := mkHeap {
  h_periods : list ConnStatePeriod;
  h_params : list ConnectionStateParams;
  h_dirs : list Direction
}.

Definition set_pending_params (v : params_ref) (w : World) : World :=
  mkWorld (tcpflow w) v (connstate w) (pending_connstate w) (old_states w)
          (fwd w) (rev w) (heap_periods w) (heap_params w) (heap_dirs w).

Definition set_connstate (v : option period_ref) (w : World) : World :=
  mkWorld (tcpflow w) (pending_params w) v (pending_connstate w) (old_states w)
          (fwd w) (rev w) (heap_periods w) (heap_params w) (heap_dirs w).

Definition set_pending_connstate (v : option period_ref) (w : World) : World :=
  mkWorld (tcpflow w) (pending_params w) (connstate w) v (old_states w)
          (fwd w) (rev w) (heap_periods w) (heap_params w) (heap_dirs w).

Definition set_old_states (v : list period_ref) (w : World) : World :=
  mkWorld (tcpflow w) (pending_params w) (connstate w) (pending_connstate w) v
          (fwd w) (rev w) (heap_periods w) (heap_params w) (heap_dirs w).

Definition set_heap_periods (v : list ConnStatePeriod) (w : World) : World :=
  mkWorld (tcpflow w) (pending_params w) (connstate w) (pending_connstate w)
          (old_states w) (fwd w) (rev w) v (heap_params w) (heap_dirs w).

Definition set_heap_params (v : list ConnectionStateParams) (w : World) : World :=
  mkWorld (tcpflow w) (pending_params w) (connstate w) (pending_connstate w)
          (old_states w) (fwd w) (rev w) (heap_periods w) v (heap_dirs w).

Definition set_heap_dirs (v : list Direction) (w : World) : World :=
  mkWorld (tcpflow w) (pending_params w) (connstate w) (pending_connstate w)
          (old_states w) (fwd w) (rev w) (heap_periods w) (heap_params w) v.

(** ** Computations: state threaded through, exceptions propagated *)

Inductive exn :=
  | AssertionError   (* a failed [assert] *)
  | AttributeError   (* an attribute read on [None] *)
  | InvalidRef.      (* a reference to no object: has no Python counterpart *)

Inductive result (A : Type) :=
  | Ok (a : A)
  | Raise (e : exn).
Arguments Ok {A} a.
Arguments Raise {A} e.

Definition M (A : Type) : Type := World -> result A * World.

Definition ret {A} (a : A) : M A := fun w => (Ok a, w).

Definition bind {A B} (m : M A) (k : A -> M B) : M B :=
  fun w => match m w with
           | (Ok a, w') => k a w'
           | (Raise e, w') => (Raise e, w')
           end.

Definition raise {A} (e : exn) : M A := fun w => (Raise e, w).
Definition get : M World := fun w => (Ok w, w).
Definition gets {A} (f : World -> A) : M A := fun w => (Ok (f w), w).
Definition modify (f : World -> World) : M unit := fun w => (Ok tt, f w).

Notation "'let*' x ':=' m 'in' k" := (bind m (fun x => k))
  (at level 10, x name, m at level 100, k at level 200).
Notation "'do' m 'then' k" := (bind m (fun _ => k))
  (at level 10, m at level 100, k at level 200).

Definition assert (b : bool) : M unit :=
  if b then ret tt else raise AssertionError.

(** ** Constructors of the collaborating classes *)

(** Modelled from the spec: the constructor [ConnStatePeriod(prev)] is not
    part of the sources at hand. It makes a new period with its own pair of
    plexes and [prev] as the period it supersedes. *)
Definition new_ConnStatePeriod (prev : option period_ref) : M period_ref :=
  let* self := get in
  let p := length (heap_periods self) in
  do modify (set_heap_periods
               (heap_periods self
                  ++ [mkPeriod (mkPlex p Forward) (mkPlex p Reverse) prev])) then
  ret p.

(** Modelled from the spec: the constructor [ConnectionStateParams(arg)] is
    not part of the sources at hand. It makes a new holder with nothing
    negotiated yet. *)
Definition new_ConnectionStateParams (arg : option nat) : M params_ref :=
  let* self := get in
  let r := length (heap_params self) in
  do modify (set_heap_params (heap_params self ++ [mkParams arg None None])) then
  ret r.

(** Modelled from the spec: the constructor [Direction(flow, tcpdir)] is not
    part of the sources at hand. It makes a new direction that reads the
    given half of the TCP flow and has no plex installed. *)
Definition new_Direction (tcp : tcp_ref) (sd : side) (h : list Direction)
  : dir_ref * list Direction :=
  (length h, h ++ [mkDirection tcp sd None]).

(** ** [Flow.next_connstate]

    [asking_dir in (self.fwd, self.rev)] and [asking_dir is self.fwd] compare
    direction objects, that is, references. [if self.pending_connstate:]
    tests a reference that is either [None] or a period object; a period is
    a plain aggregate, so only [None] counts as false. *)

(** The nested helper [right_plex]: it reads [self.pending_connstate] at the
    time it is called and picks the side by the identity of [asking_dir]. *)
Definition right_plex (asking_dir : dir_ref) : M ConnStatePlex :=
  let* self := get in
  match pending_connstate self with
  | None => raise AttributeError
  | Some p =>
      match heap_periods self !! p with
      | None => raise InvalidRef
      | Some period =>
          if decide (asking_dir = fwd self) then ret (period_fwd period)
          else ret (period_rev period)
      end
  end.

Definition next_connstate (asking_dir : dir_ref) : M ConnStatePlex :=
  let* self_fwd := gets fwd in
  let* self_rev := gets rev in
  do assert (bool_decide (asking_dir = self_fwd \/ asking_dir = self_rev)) then
  let* pending := gets pending_connstate in
  match pending with
  | Some _ =>
      let* r := right_plex asking_dir in
      do modify (set_pending_connstate None) then
      ret r
  | None =>
      let* prev := gets connstate in
      let* p := new_ConnStatePeriod prev in
      do modify (set_pending_connstate (Some p)) then
      let* cur := gets connstate in
      do match cur with
         | Some c =>
             let* old := gets old_states in
             modify (set_old_states (old ++ [c]))
         | None => ret tt
         end then
      let* pending' := gets pending_connstate in
      do modify (set_connstate pending') then
      let* pp := new_ConnectionStateParams None in
      do modify (set_pending_params pp) then
      let* r := right_plex asking_dir in
      ret r
  end.

(** Direction [d] takes [p] as the plex in use. *)
Definition install_plex (d : dir_ref) (p : ConnStatePlex) (w : World) : World :=
  set_heap_dirs
    (alter (fun o => mkDirection (dir_tcpflow o) (dir_tcpdir o) (Some p)) d
           (heap_dirs w)) w.

(** Modelled from the spec: [Direction.on_change_cipher_spec] is not part of
    the sources at hand. It fetches the direction's next plex through
    [Flow.next_connstate(self)] and installs it as the one in use. *)
Definition on_change_cipher_spec (d : dir_ref) : M unit :=
  let* p := next_connstate d in
  modify (install_plex d p).

(** ** [Flow.__init__] *)

(** The attributes as assigned before the two bootstrap calls. *)
Definition Flow_alloc (tcp : tcp_ref) (h : Heap) : World :=
  let pp := length (h_params h) in
  let params1 := h_params h ++ [mkParams None None None] in
  let '(f, dirs1) := new_Direction tcp Forward (h_dirs h) in
  let '(r, dirs2) := new_Direction tcp Reverse dirs1 in
  mkWorld tcp pp None None [] f r (h_periods h) params1 dirs2.

Definition Flow_init (tcp : tcp_ref) (h : Heap) : result unit * World :=
  let w := Flow_alloc tcp h in
  (do on_change_cipher_spec (fwd w) then on_change_cipher_spec (rev w)) w.

(** A run of rendezvous requests, one per entry of [ds], in order; the first
    exception ends the run. The result records who received which plex. *)
Fixpoint calls (ds : list dir_ref) : M (list (dir_ref * ConnStatePlex)) :=
  match ds with
  | [] => ret []
  | d :: ds' =>
      let* p := next_connstate d in
      let* t := calls ds' in
      ret ((d, p) :: t)
  end.

(** The directions to which plex [p] was returned, in the order of the calls. *)
Fixpoint handed (t : list (dir_ref * ConnStatePlex)) (p : ConnStatePlex)
  : list dir_ref :=
  match t with
  | [] => []
  | (d, q) :: t' => if decide (q = p) then d :: handed t' p else handed t' p
  end.

(** ** Vocabulary of the statements *)

Definition owned (w : World) (d : dir_ref) : Prop := d = fwd w \/ d = rev w.

(** The half of period number [n] that goes to [d] when [f] is the forward
    direction. *)
Definition plex_for (f d : dir_ref) (n : period_ref) : ConnStatePlex :=
  mkPlex n (if decide (d = f) then Forward else Reverse).

(** The period object that [ConnStatePeriod(prev)] stores at index [n]. *)
Definition period_at (n : period_ref) (prev : option period_ref) : ConnStatePeriod :=
  mkPeriod (mkPlex n Forward) (mkPlex n Reverse) prev.

(** The world after a request that found no period pending. *)
Definition opened (w : World) : World :=
  let n := length (heap_periods w) in
  mkWorld (tcpflow w) (length (heap_params w)) (Some n) (Some n)
          (old_states w ++ option_list (connstate w)) (fwd w) (rev w)
          (heap_periods w ++ [period_at n (connstate w)])
          (heap_params w ++ [mkParams None None None]) (heap_dirs w).

(** The worlds a flow can be in: whatever a sequence of requests leads to,
    by any direction and in any order, failed ones included, made directly
    or through a direction's [on_change_cipher_spec]. *)
Inductive reachable (w0 : World) : World -> Prop :=
  | reach_here : reachable w0 w0
  | reach_call w d r w' :
      reachable w0 w -> next_connstate d w = (r, w') -> reachable w0 w'
  | reach_change w d r w' :
      reachable w0 w -> on_change_cipher_spec d w = (r, w') -> reachable w0 w'.

(** A sequence of requests alternates correctly when it is made of
    transitions, each carried out by the two directions in either order,
    the last of which may still await its second request. *)
Fixpoint alternates (f r : dir_ref) (ds : list dir_ref) : bool :=
  match ds with
  | [] => true
  | d1 :: ds1 =>
      match ds1 with
      | [] => bool_decide (d1 = f \/ d1 = r)
      | d2 :: ds2 =>
          (bool_decide (d1 = f /\ d2 = r) || bool_decide (d1 = r /\ d2 = f))
          && alternates f r ds2
      end
  end.

(** What an alternating run hands out, from period number [n] on. *)
Fixpoint expected (f : dir_ref) (n : period_ref) (ds : list dir_ref)
  : list (dir_ref * ConnStatePlex) :=
  match ds with
  | [] => []
  | d1 :: ds1 =>
      (d1, plex_for f d1 n) ::
      match ds1 with
      | [] => []
      | d2 :: ds2 => (d2, plex_for f d2 n) :: expected f (S n) ds2
      end
  end.

(** The state of the flow's epoch bookkeeping when the periods it has
    created are those numbered from [n0] on. *)
Record flow_inv (n0 : nat) (w : World) : Prop := mk_flow_inv {
  inv_base : n0 <= length (heap_periods w);
  inv_old : old_states w = seq n0 (pred (length (heap_periods w) - n0));
  inv_cur : connstate w =
            if decide (length (heap_periods w) = n0) then None
            else Some (pred (length (heap_periods w)));
  inv_pend : pending_connstate w = None \/
             (n0 < length (heap_periods w) /\
              pending_connstate w = Some (pred (length (heap_periods w))));
  inv_objs : forall i, n0 <= i < length (heap_periods w) ->
             heap_periods w !! i =
               Some (period_at i (if decide (i = n0) then None else Some (pred i)))
}.

(** Every plex still to be handed out belongs to a period numbered [b] or
    later. *)
Definition fresh_from (b : nat) (w : World) : Prop :=
  b <= length (heap_periods w) /\
  match pending_connstate w with
  | None => True
  | Some p => b <= p /\ exists prev, heap_periods w !! p = Some (period_at p prev)
  end.

(** *** A flow to run the statements on

    A store that already holds the direction of some other flow, the flow
    built in it (before its two bootstrap requests), and the same flow after
    its forward direction has asked once. *)
Definition heap0 : Heap := mkHeap [] [] [mkDirection 3 Forward None].
Definition flow0 : World := Flow_alloc 7 heap0.
Definition flow1 : World := snd (next_connstate (fwd flow0) flow0).

(** *** The statements that do not hold as worded *)

(** Exactly two per epoch, as worded: the run creates ceil(n/2) periods and
    each created period has its forward plex returned to exactly one
    direction and its reverse plex to exactly the other. *)
Definition exactly_two_per_epoch (w : World) (ds : list dir_ref) : Prop :=
  exists t w',
    calls ds w = (Ok t, w') /\
    length (heap_periods w') = length (heap_periods w) + (length ds + 1) / 2 /\
    forall i period,
      length (heap_periods w) <= i -> heap_periods w' !! i = Some period ->
      exists d1 d2, d1 <> d2 /\
        handed t (period_fwd period) = [d1] /\
        handed t (period_rev period) = [d2].

(** A request fails loudly when it raises instead of returning a plex. *)
Definition fails_loudly (d : dir_ref) (w : World) : Prop :=
  exists e w', next_connstate d w = (Raise e, w').

(** A repeated request, as worded: the second of two consecutive requests by
    [d] returns the plex the first returned and leaves nothing pending. *)
Definition repeat_returns_same (d : dir_ref) (w : World) : Prop :=
  exists p w1 w2,
    next_connstate d w = (Ok p, w1) /\
    next_connstate d w1 = (Ok p, w2) /\
    pending_connstate w2 = None.

(** ** [Flow.add], [Flow.finish] and [Flow.handshake]

    The three remaining methods hand over to collaborators that are not part
    of the sources at hand: [tcp.Flow.add], [tcp.Flow.finish], the attribute
    [tcp.Flow.handshake] and [Direction.update_records]. They are taken as
    parameters; each may act on the world and may raise. *)
Section Collaborators.
Variable packet : Type.
Variable handshake_data : Type.
Variable tcp_add : tcp_ref -> packet -> M unit.
Variable tcp_finish : tcp_ref -> M unit.
Variable tcp_handshake : tcp_ref -> M handshake_data.
Variable update_records : dir_ref -> M unit.


Definition handshake : M handshake_data :=
  let* self_tcpflow := gets tcpflow in
  tcp_handshake self_tcpflow.



End Collaborators.

(** A run of changes of cipher spec, one per entry of [ds], in order. *)
Fixpoint changes (ds : list dir_ref) : M unit :=
  match ds with
  | [] => ret tt
  | d :: ds' => do on_change_cipher_spec d then changes ds'
  end.

(** The periods met when following the predecessor references from [cur],
    at most [fuel] of them. *)
Fixpoint history (ps : list ConnStatePeriod) (fuel : nat)
    (cur : option period_ref) : list period_ref :=
  match fuel, cur with
  | S fuel', Some c =>
      c :: history ps fuel' (ps !! c ≫= period_prev)
  | _, _ => []
  end.

(** Both directions use the current period: the forward direction its
    forward plex and the reverse direction its reverse plex. *)
Definition aligned (w : World) : Prop :=
  exists c period,
    connstate w = Some c /\
    heap_periods w !! c = Some period /\
    dir_connstate <$> heap_dirs w !! fwd w = Some (Some (period_fwd period)) /\
    dir_connstate <$> heap_dirs w !! rev w = Some (Some (period_rev period)).

(** ** The branches of [next_connstate] in closed form *)

Lemma next_connstate_not_owned w d :
  ~ owned w d -> next_connstate d w = (Raise AssertionError, w).
Proof.
  intros Hn. unfold next_connstate, bind, gets, assert.
  rewrite bool_decide_eq_false_2 by exact Hn. reflexivity.
Qed.

Lemma next_connstate_open w d :
  owned w d -> pending_connstate w = None ->
  next_connstate d w =
    (Ok (plex_for (fwd w) d (length (heap_periods w))), opened w).
Proof.
  intros Ho Hp. unfold next_connstate, bind, gets, assert.
  rewrite bool_decide_eq_true_2 by exact Ho. cbn. rewrite Hp.
  unfold new_ConnStatePeriod, new_ConnectionStateParams, right_plex, bind,
    get, modify, ret. cbn.
  unfold plex_for, opened, period_at.
  destruct (connstate w); cbn;
    (rewrite lookup_app_r by lia); rewrite Nat.sub_diag; cbn;
    destruct (decide (d = fwd w)); cbn; rewrite ?app_nil_r; reflexivity.
Qed.

Lemma next_connstate_close w d p period :
  owned w d -> pending_connstate w = Some p ->
  heap_periods w !! p = Some period ->
  next_connstate d w =
    (Ok (if decide (d = fwd w) then period_fwd period else period_rev period),
     set_pending_connstate None w).
Proof.
  intros Ho Hp Hl. unfold next_connstate, bind, gets, assert.
  rewrite bool_decide_eq_true_2 by exact Ho. cbn. rewrite Hp.
  unfold right_plex, bind, get, modify, ret. rewrite Hp, Hl.
  destruct (decide (d = fwd w)); reflexivity.
Qed.

Lemma next_connstate_dangling w d p :
  owned w d -> pending_connstate w = Some p -> heap_periods w !! p = None ->
  next_connstate d w = (Raise InvalidRef, w).
Proof.
  intros Ho Hp Hl. unfold next_connstate, bind, gets, assert.
  rewrite bool_decide_eq_true_2 by exact Ho. cbn. rewrite Hp.
  unfold right_plex, bind, get, modify, ret. rewrite Hp, Hl. reflexivity.
Qed.

(** Whatever the world, a request ends in one of four ways. *)
Lemma next_connstate_cases w d r w' :
  next_connstate d w = (r, w') ->
  (w' = w /\ exists e, r = Raise e) \/
  (owned w d /\ pending_connstate w = None /\ w' = opened w /\
   r = Ok (plex_for (fwd w) d (length (heap_periods w)))) \/
  (owned w d /\ w' = set_pending_connstate None w /\
   exists p period, pending_connstate w = Some p /\
     heap_periods w !! p = Some period /\
     r = Ok (if decide (d = fwd w) then period_fwd period else period_rev period)).
Proof.
  intros H. destruct (decide (owned w d)) as [Ho|Hn].
  - destruct (pending_connstate w) as [p|] eqn:Hp.
    + destruct (heap_periods w !! p) as [period|] eqn:Hl.
      * rewrite (next_connstate_close _ _ _ _ Ho Hp Hl) in H.
        injection H as <- <-. right. right. eauto 10.
      * rewrite (next_connstate_dangling _ _ _ Ho Hp Hl) in H.
        injection H as <- <-. left. eauto.
    + rewrite (next_connstate_open _ _ Ho Hp) in H.
      injection H as <- <-. right. left. auto.
  - rewrite (next_connstate_not_owned _ _ Hn) in H.
    injection H as <- <-. left. eauto.
Qed.

(** ** What every request preserves *)

Lemma step_fwd_rev w d r w' :
  next_connstate d w = (r, w') -> fwd w' = fwd w /\ rev w' = rev w.
Proof.
  intros H. apply next_connstate_cases in H.
  destruct H as [[-> _]|[(_ & _ & -> & _)|(_ & -> & _)]]; auto.
Qed.

Lemma step_extends w d r w' :
  next_connstate d w = (r, w') ->
  old_states w `prefix_of` old_states w' /\
  heap_periods w `prefix_of` heap_periods w'.
Proof.
  intros H. apply next_connstate_cases in H.
  destruct H as [[-> _]|[(_ & _ & -> & _)|(_ & -> & _)]]; cbn;
    split; try reflexivity; apply prefix_app_r; reflexivity.
Qed.

(** A change of cipher spec is a request followed, when it is served, by
    the installation of the plex; the installation touches the directions
    only. *)
Lemma change_cases w d r w' :
  on_change_cipher_spec d w = (r, w') ->
  exists r1 w1, next_connstate d w = (r1, w1) /\
    (w' = w1 \/ exists p, w' = install_plex d p w1).
Proof.
  unfold on_change_cipher_spec, bind, modify.
  destruct (next_connstate d w) as [[p|e] w1]; intros [= <- <-];
    eexists _, _; (split; [reflexivity|]); eauto.
Qed.

Lemma reachable_trans w0 w1 w2 :
  reachable w0 w1 -> reachable w1 w2 -> reachable w0 w2.
Proof.
  intros H01 H12.
  induction H12 as [|w d r w' _ IH Hs|w d r w' _ IH Hs]; [exact H01| |].
  - exact (reach_call _ _ _ _ _ IH Hs).
  - exact (reach_change _ _ _ _ _ IH Hs).
Qed.

Lemma reachable_fwd_rev w0 w :
  reachable w0 w -> fwd w = fwd w0 /\ rev w = rev w0.
Proof.
  induction 1 as [|w d r w' _ [IHf IHr] Hs|w d r w' _ [IHf IHr] Hs]; [auto| |].
  - apply step_fwd_rev in Hs as [-> ->]. auto.
  - apply change_cases in Hs as (r1 & w1 & Hs & [->|[p ->]]);
      apply step_fwd_rev in Hs as [Ef Er]; cbn; rewrite ?Ef, ?Er; auto.
Qed.

Lemma reachable_extends w0 w :
  reachable w0 w ->
  old_states w0 `prefix_of` old_states w /\
  heap_periods w0 `prefix_of` heap_periods w.
Proof.
  induction 1 as [|w d r w' _ [IHo IHh] Hs|w d r w' _ [IHo IHh] Hs];
    [split; reflexivity| |].
  - apply step_extends in Hs as [Ho Hh].
    split; etrans; eassumption.
  - apply change_cases in Hs as (r1 & w1 & Hs & [->|[p ->]]);
      apply step_extends in Hs as [Ho Hh]; cbn;
      split; etrans; eassumption.
Qed.

Lemma flow_inv_alloc tcp h : flow_inv (length (h_periods h)) (Flow_alloc tcp h).
Proof.
  unfold Flow_alloc, new_Direction. constructor; cbn.
  - lia.
  - rewrite Nat.sub_diag. reflexivity.
  - rewrite decide_True by reflexivity. reflexivity.
  - left. reflexivity.
  - intros i Hi. lia.
Qed.

Lemma flow_inv_opened n0 w : flow_inv n0 w -> flow_inv n0 (opened w).
Proof.
  intros [Hb Ho Hc Hp Hobj]. unfold opened.
  constructor; cbn; rewrite ?length_app; cbn.
  - lia.
  - rewrite Ho, Hc. destruct (decide (length (heap_periods w) = n0)) as [->|Hne].
    + replace (n0 + 1 - n0) with 1 by lia. rewrite Nat.sub_diag. reflexivity.
    + replace (pred (length (heap_periods w) + 1 - n0))
        with (S (pred (length (heap_periods w) - n0))) by lia.
      rewrite seq_S. cbn. do 2 f_equal. lia.
  - rewrite decide_False by lia. f_equal. lia.
  - right. split; [lia|]. f_equal. lia.
  - intros i Hi. destruct (decide (i = length (heap_periods w))) as [->|Hne].
    + rewrite lookup_app_r by lia. rewrite Nat.sub_diag. cbn.
      rewrite Hc. reflexivity.
    + rewrite lookup_app_l by lia. apply Hobj. lia.
Qed.

Lemma flow_inv_closed n0 w :
  flow_inv n0 w -> flow_inv n0 (set_pending_connstate None w).
Proof.
  intros [Hb Ho Hc Hp Hobj]. constructor; cbn; auto.
Qed.

Lemma flow_inv_step n0 w d r w' :
  next_connstate d w = (r, w') -> flow_inv n0 w -> flow_inv n0 w'.
Proof.
  intros H Hinv. apply next_connstate_cases in H.
  destruct H as [[-> _]|[(_ & _ & -> & _)|(_ & -> & _)]].
  - exact Hinv.
  - apply flow_inv_opened, Hinv.
  - apply flow_inv_closed, Hinv.
Qed.

Lemma flow_inv_install n0 w d p :
  flow_inv n0 w -> flow_inv n0 (install_plex d p w).
Proof.
  intros [Hb Ho Hc Hp Hobj]. constructor; cbn; auto.
Qed.

Lemma flow_inv_reachable n0 w0 w :
  flow_inv n0 w0 -> reachable w0 w -> flow_inv n0 w.
Proof.
  intros H0. induction 1 as [|w d r w' _ IH Hs|w d r w' _ IH Hs]; [exact H0| |].
  - exact (flow_inv_step _ _ _ _ _ Hs IH).
  - apply change_cases in Hs as (r1 & w1 & Hs & [->|[p ->]]).
    + exact (flow_inv_step _ _ _ _ _ Hs IH).
    + apply flow_inv_install. exact (flow_inv_step _ _ _ _ _ Hs IH).
Qed.

(** In a world that satisfies the invariant an owned direction is served. *)
Lemma flow_inv_served n0 w d :
  flow_inv n0 w -> owned w d ->
  exists p w', next_connstate d w = (Ok p, w') /\
    (pending_connstate w = None <-> is_Some (pending_connstate w')).
Proof.
  intros Hinv Ho. destruct (inv_pend _ _ Hinv) as [Hp|[Hlt Hp]].
  - eexists _, _. split; [apply next_connstate_open; assumption|].
    cbn. split; eauto.
  - eexists _, _. split.
    + eapply next_connstate_close; eauto.
      apply (inv_objs _ _ Hinv). lia.
    + cbn. rewrite Hp. split; [discriminate|]. intros [? ?]. discriminate.
Qed.

(** ** The two branches, as the rendezvous protocol states them *)

(** C1: when no period is pending, a request by an owned direction [d]
    constructs a new period whose predecessor is the current one, appends the
    old current period to [old_states] exactly when there was one, installs
    the new period as both current and pending, replaces [pending_params] by
    a newly constructed empty holder, and returns the new period's forward
    plex if [d] is the forward direction and its reverse plex otherwise. *)
Theorem C1_first_request_opens_period (w : World) (d : dir_ref) :
  pending_connstate w = None -> owned w d ->
  exists p w' period,
    next_connstate d w = (Ok p, w') /\
    heap_periods w' = heap_periods w ++ [period] /\
    period_prev period = connstate w /\
    old_states w' =
      old_states w ++ match connstate w with Some c => [c] | None => [] end /\
    connstate w' = Some (length (heap_periods w)) /\
    pending_connstate w' = Some (length (heap_periods w)) /\
    heap_params w' = heap_params w ++ [mkParams None None None] /\
    pending_params w' = length (heap_params w) /\
    p = (if decide (d = fwd w) then period_fwd period else period_rev period) /\
    period_fwd period <> period_rev period /\
    (fwd w', rev w', heap_dirs w', tcpflow w')
      = (fwd w, rev w, heap_dirs w, tcpflow w).
Proof.
  intros Hp Ho.
  exists (plex_for (fwd w) d (length (heap_periods w))), (opened w),
    (period_at (length (heap_periods w)) (connstate w)).
  split; [apply next_connstate_open; assumption|].
  unfold opened, plex_for, period_at; cbn.
  repeat split; try reflexivity; try discriminate.
  destruct (decide (d = fwd w)); reflexivity.
Qed.

Lemma C1_witness :
  exists p w', next_connstate 1 flow0 = (Ok p, w') /\
    pending_connstate w' = Some 0 /\ old_states w' = [].
Proof.
  destruct (C1_first_request_opens_period flow0 1)
    as (p & w' & period & H & _ & _ & Hold & _ & Hpend & _).
  - reflexivity.
  - left. reflexivity.
  - exists p, w'. split; [exact H|]. split; [exact Hpend|exact Hold].
Defined.

(** C2: when a period is pending, a request by an owned direction [d]
    returns [d]'s plex of the pending period and clears the pending slot;
    the current period, [old_states], [pending_params] and every stored
    object stay as they were. *)
Theorem C2_second_request_closes (w : World) (d : dir_ref)
    (pending : period_ref) (period : ConnStatePeriod) :
  pending_connstate w = Some pending ->
  heap_periods w !! pending = Some period ->
  owned w d ->
  exists w',
    next_connstate d w =
      (Ok (if decide (d = fwd w) then period_fwd period else period_rev period),
       w') /\
    pending_connstate w' = None /\
    connstate w' = connstate w /\
    old_states w' = old_states w /\
    pending_params w' = pending_params w /\
    w' = set_pending_connstate None w.
Proof.
  intros Hp Hl Ho. exists (set_pending_connstate None w).
  split; [eapply next_connstate_close; eassumption|].
  cbn. repeat split.
Qed.

Lemma C2_witness :
  exists w', next_connstate 2 flow1 = (Ok (mkPlex 0 Reverse), w') /\
    pending_connstate w' = None /\ connstate w' = Some 0.
Proof.
  destruct (C2_second_request_closes flow1 2 0 (period_at 0 None))
    as (w' & H & Hp & Hc & _).
  - reflexivity.
  - reflexivity.
  - right. reflexivity.
  - exists w'. split; [exact H|]. split; [exact Hp|exact Hc].
Defined.

(** C7: a request by a direction that is neither the flow's forward nor its
    reverse direction fails with an assertion error; no plex is returned and
    the flow is left as it was. *)
Theorem C7_foreign_direction_asserts (w : World) (d : dir_ref) :
  d <> fwd w -> d <> rev w ->
  next_connstate d w = (Raise AssertionError, w).
Proof.
  intros Hf Hr. apply next_connstate_not_owned. intros [?|?]; contradiction.
Qed.

Lemma C7_witness : next_connstate 0 flow1 = (Raise AssertionError, flow1).
Proof.
  apply (C7_foreign_direction_asserts flow1 0); discriminate.
Defined.

(** ** One transition, in either order *)

Lemma calls_pair w a b :
  pending_connstate w = None -> owned w a -> owned w b ->
  calls [a; b] w =
    (Ok [(a, plex_for (fwd w) a (length (heap_periods w)));
         (b, plex_for (fwd w) b (length (heap_periods w)))],
     set_pending_connstate None (opened w)).
Proof.
  intros Hp Ha Hb. cbn [calls]. unfold bind at 1.
  rewrite (next_connstate_open _ _ Ha Hp). unfold bind at 1.
  unfold bind at 1.
  erewrite (next_connstate_close (opened w) b (length (heap_periods w)));
    [| exact Hb | reflexivity
     | cbn; rewrite lookup_app_r by lia; rewrite Nat.sub_diag; reflexivity ].
  cbn. unfold plex_for.
  destruct (decide (b = fwd w)); reflexivity.
Qed.

(** C4: the pairing does not depend on who asks first. When the forward
    direction asks first and the reverse direction second, the forward
    direction receives the forward plex of the new period and the reverse
    direction its reverse plex; when the reverse direction asks first the
    same plexes go to the same directions, and the flow ends in the same
    state. *)
Theorem C4_order_insensitive (w : World) :
  pending_connstate w = None -> fwd w <> rev w ->
  exists period w2,
    heap_periods w2 !! length (heap_periods w) = Some period /\
    connstate w2 = Some (length (heap_periods w)) /\
    calls [fwd w; rev w] w =
      (Ok [(fwd w, period_fwd period); (rev w, period_rev period)], w2) /\
    calls [rev w; fwd w] w =
      (Ok [(rev w, period_rev period); (fwd w, period_fwd period)], w2).
Proof.
  intros Hp Hne.
  exists (period_at (length (heap_periods w)) (connstate w)),
    (set_pending_connstate None (opened w)).
  assert (Hf : owned w (fwd w)) by (left; reflexivity).
  assert (Hr : owned w (rev w)) by (right; reflexivity).
  rewrite (calls_pair _ _ _ Hp Hf Hr), (calls_pair _ _ _ Hp Hr Hf).
  unfold plex_for. rewrite decide_True by reflexivity.
  rewrite decide_False by (intros E; apply Hne; symmetry; exact E).
  cbn. rewrite lookup_app_r by lia. rewrite Nat.sub_diag. auto.
Qed.

Lemma C4_witness :
  exists period w2,
    heap_periods w2 !! length (heap_periods flow0) = Some period /\
    connstate w2 = Some (length (heap_periods flow0)) /\
    calls [fwd flow0; rev flow0] flow0 =
      (Ok [(fwd flow0, period_fwd period); (rev flow0, period_rev period)], w2) /\
    calls [rev flow0; fwd flow0] flow0 =
      (Ok [(rev flow0, period_rev period); (fwd flow0, period_fwd period)], w2).
Proof.
  apply (C4_order_insensitive flow0); [reflexivity|discriminate].
Defined.

(** ** Construction *)

(** C5: [Flow.__init__] returns normally; afterwards both directions hold a
    plex, the two plexes are the forward and the reverse plex of one and the
    same period, that period is the flow's current one and the only one the
    construction created, [old_states] is empty and nothing is pending. *)
Theorem C5_bootstrap (tcp : tcp_ref) (h : Heap) :
  exists w period,
    Flow_init tcp h = (Ok tt, w) /\
    dir_connstate <$> heap_dirs w !! fwd w = Some (Some (period_fwd period)) /\
    dir_connstate <$> heap_dirs w !! rev w = Some (Some (period_rev period)) /\
    plex_period (period_fwd period) = plex_period (period_rev period) /\
    connstate w = Some (plex_period (period_fwd period)) /\
    heap_periods w !! plex_period (period_fwd period) = Some period /\
    heap_periods w = h_periods h ++ [period] /\
    old_states w = [] /\
    pending_connstate w = None.
Proof.
  exists (install_plex (S (length (h_dirs h))) (mkPlex (length (h_periods h)) Reverse)
            (set_pending_connstate None
               (install_plex (length (h_dirs h)) (mkPlex (length (h_periods h)) Forward)
                  (opened (Flow_alloc tcp h))))),
    (period_at (length (h_periods h)) None).
  split.
  - unfold Flow_init, on_change_cipher_spec. unfold bind at 1. unfold bind at 1.
    rewrite (next_connstate_open (Flow_alloc tcp h) (fwd (Flow_alloc tcp h)))
      by (first [left; reflexivity | reflexivity]).
    unfold modify at 1. unfold bind at 1.
    erewrite (next_connstate_close _ _ (length (h_periods h)));
      [| right; cbn; rewrite length_app; cbn; lia | reflexivity
       | cbn; rewrite lookup_app_r by lia; rewrite Nat.sub_diag; reflexivity ].
    unfold modify, plex_for. cbn.
    rewrite length_app. cbn [length]. rewrite Nat.add_1_r.
    rewrite (decide_True (P := length (h_dirs h) = length (h_dirs h)))
      by reflexivity.
    rewrite (decide_False (P := S (length (h_dirs h)) = length (h_dirs h)))
      by lia.
    reflexivity.
  - cbn. repeat split.
    + rewrite list_lookup_alter_ne by lia. rewrite list_lookup_alter_eq.
      rewrite lookup_app_l by (rewrite length_app; cbn; lia).
      rewrite lookup_app_r by lia. rewrite Nat.sub_diag. reflexivity.
    + rewrite length_app. cbn. rewrite Nat.add_1_r. rewrite list_lookup_alter_eq.
      rewrite list_lookup_alter_ne by lia.
      rewrite lookup_app_r by (rewrite length_app; cbn; lia).
      rewrite length_app. cbn. rewrite Nat.add_1_r, Nat.sub_diag. reflexivity.
    + rewrite lookup_app_r by lia. rewrite Nat.sub_diag. reflexivity.
Qed.


(** ** Runs of requests *)

Lemma calls_cons d ds w :
  calls (d :: ds) w =
    match next_connstate d w with
    | (Ok p, w1) =>
        match calls ds w1 with
        | (Ok t, w2) => (Ok ((d, p) :: t), w2)
        | (Raise e, w2) => (Raise e, w2)
        end
    | (Raise e, w1) => (Raise e, w1)
    end.
Proof.
  cbn [calls]. unfold bind, ret.
  destruct (next_connstate d w) as [[p|e] w1]; [|reflexivity].
  destruct (calls ds w1) as [[t|e] w2]; reflexivity.
Qed.

Lemma reachable_calls ds w : reachable w (snd (calls ds w)).
Proof.
  revert w. induction ds as [|d ds IH]; intros w; [apply reach_here|].
  rewrite calls_cons.
  destruct (next_connstate d w) as [[p|e] w1] eqn:Hs.
  - specialize (IH w1).
    assert (Hw : reachable w w1) by (eapply reach_call; [apply reach_here|exact Hs]).
    destruct (calls ds w1) as [[t|e] w2]; cbn in *;
      exact (reachable_trans _ _ _ Hw IH).
  - cbn. eapply reach_call; [apply reach_here|exact Hs].
Qed.

(** ** Retired periods *)

(** C6: at any point of a flow's life, [old_states] lists the periods the
    flow has created other than the current one, each once and in the order
    of their creation; a period that was current earlier and no longer is
    appears there; whatever requests follow, [old_states] keeps its entries in
    place (it only grows at the end) and every stored period stays as it
    was. *)
Theorem C6_retired_periods_kept (tcp : tcp_ref) (h : Heap) (w : World) :
  reachable (Flow_alloc tcp h) w ->
  old_states w
    = seq (length (h_periods h))
          (pred (length (heap_periods w) - length (h_periods h))) /\
  NoDup (old_states w) /\
  (forall w1 p,
     reachable (Flow_alloc tcp h) w1 -> reachable w1 w ->
     connstate w1 = Some p -> connstate w <> Some p ->
     p ∈ old_states w) /\
  (forall p, p ∈ old_states w -> connstate w <> Some p) /\
  (forall w',
     reachable w w' ->
     old_states w `prefix_of` old_states w' /\
     forall i period,
       heap_periods w !! i = Some period -> heap_periods w' !! i = Some period).
Proof.
  intros Hr.
  pose proof (flow_inv_reachable _ _ _ (flow_inv_alloc tcp h) Hr) as Hinv.
  pose proof (inv_old _ _ Hinv) as Hold.
  pose proof (inv_cur _ _ Hinv) as Hcur.
  pose proof (inv_base _ _ Hinv) as Hbase.
  change (heap_periods (Flow_alloc tcp h)) with (h_periods h) in *.
  split; [exact Hold|]. split; [rewrite Hold; apply NoDup_seq|].
  split; [|split].
  - intros w1 p Hr1 Hr1w Hc1 Hne.
    pose proof (flow_inv_reachable _ _ _ (flow_inv_alloc tcp h) Hr1) as Hinv1.
    pose proof (inv_cur _ _ Hinv1) as Hcur1.
    pose proof (inv_base _ _ Hinv1) as Hbase1.
    change (heap_periods (Flow_alloc tcp h)) with (h_periods h) in *.
    destruct (reachable_extends _ _ Hr1w) as [_ Hpre].
    apply prefix_length in Hpre.
    rewrite Hc1 in Hcur1.
    destruct (decide (length (heap_periods w1) = length (h_periods h)));
      [discriminate|]. injection Hcur1 as ->.
    rewrite decide_False in Hcur by lia. rewrite Hcur in Hne.
    assert (pred (length (heap_periods w1)) <> pred (length (heap_periods w)))
      by (intros E; apply Hne; rewrite E; reflexivity).
    rewrite Hold. apply elem_of_seq. lia.
  - intros p Hin. rewrite Hold in Hin. apply elem_of_seq in Hin.
    rewrite Hcur.
    destruct (decide (length (heap_periods w) = length (h_periods h)));
      [discriminate|]. intros [= E]. lia.
  - intros w' Hr'. destruct (reachable_extends _ _ Hr') as [Ho Hp].
    split; [exact Ho|]. intros i period Hl.
    eapply prefix_lookup_Some; eassumption.
Qed.

Lemma C6_witness :
  old_states (snd (calls [1; 2; 2; 1; 1] flow0)) = [0; 1].
Proof.
  exact (proj1 (C6_retired_periods_kept 7 heap0 _
                  (reachable_calls [1; 2; 2; 1; 1] flow0))).
Defined.

(** ** The pending slot *)

Lemma calls_served n0 ds w :
  flow_inv n0 w -> Forall (owned w) ds ->
  exists t w',
    calls ds w = (Ok t, w') /\ flow_inv n0 w' /\ fst <$> t = ds /\
    bool_decide (is_Some (pending_connstate w'))
      = xorb (bool_decide (is_Some (pending_connstate w))) (Nat.odd (length ds)).
Proof.
  revert w. induction ds as [|d ds IH]; intros w Hinv Hall.
  - exists [], w. cbn. rewrite xorb_false_r. auto.
  - apply Forall_cons in Hall as [Hd Hall].
    destruct (flow_inv_served _ _ _ Hinv Hd) as (p & w1 & Hs & Hflip).
    destruct (IH w1) as (t & w2 & Hc & Hinv2 & Hds & Hpar).
    + exact (flow_inv_step _ _ _ _ _ Hs Hinv).
    + destruct (step_fwd_rev _ _ _ _ Hs) as [Ef Er].
      eapply Forall_impl; [exact Hall|]. unfold owned. intros x.
      rewrite Ef, Er. auto.
    + exists ((d, p) :: t), w2. rewrite calls_cons, Hs, Hc.
      split; [reflexivity|]. split; [exact Hinv2|].
      split; [cbn; rewrite Hds; reflexivity|].
      rewrite Hpar. cbn [length]. rewrite Nat.odd_succ, <- Nat.negb_odd.
      destruct (pending_connstate w) as [q|].
      * rewrite (bool_decide_eq_false_2 (is_Some (pending_connstate w1))).
        -- rewrite (bool_decide_eq_true_2 (is_Some (Some q))) by eauto.
           destruct (Nat.odd (length ds)); reflexivity.
        -- intros Hsome. apply Hflip in Hsome. discriminate.
      * rewrite (bool_decide_eq_true_2 (is_Some (pending_connstate w1)))
          by (apply Hflip; reflexivity).
        rewrite (bool_decide_eq_false_2 (is_Some None))
          by (intros [? ?]; discriminate).
        destruct (Nat.odd (length ds)); reflexivity.
Qed.

(** C9: the pending slot is empty when construction starts; in every world
    the flow can reach it is either empty or holds one period, the current
    one; a request that finds it empty fills it and a request that finds it
    filled empties it, so that after a run of requests by the flow's
    directions it is filled exactly when their number is odd, that is,
    between the first and the second request of a transition. *)
Theorem C9_pending_slot (tcp : tcp_ref) (h : Heap) (w : World) :
  reachable (Flow_alloc tcp h) w ->
  pending_connstate (Flow_alloc tcp h) = None /\
  (pending_connstate w = None \/
   (is_Some (pending_connstate w) /\ pending_connstate w = connstate w)) /\
  (forall d, owned w d ->
     exists p w', next_connstate d w = (Ok p, w') /\
       (pending_connstate w = None -> is_Some (pending_connstate w')) /\
       (is_Some (pending_connstate w) -> pending_connstate w' = None)) /\
  (forall ds, Forall (owned (Flow_alloc tcp h)) ds ->
     exists t w', calls ds (Flow_alloc tcp h) = (Ok t, w') /\
       (is_Some (pending_connstate w') <-> Nat.odd (length ds) = true)).
Proof.
  intros Hr.
  pose proof (flow_inv_reachable _ _ _ (flow_inv_alloc tcp h) Hr) as Hinv.
  split; [reflexivity|]. split; [|split].
  - destruct (inv_pend _ _ Hinv) as [Hp|[Hlt Hp]]; [left; exact Hp|right].
    rewrite Hp, (inv_cur _ _ Hinv). rewrite decide_False by lia. eauto.
  - intros d Hd.
    destruct (flow_inv_served _ _ _ Hinv Hd) as (p & w' & Hs & Hflip).
    exists p, w'. split; [exact Hs|]. split; [apply Hflip|].
    intros Hsome. destruct (pending_connstate w') as [q|] eqn:E; [|reflexivity].
    assert (Hn : pending_connstate w = None) by (apply Hflip; eauto).
    rewrite Hn in Hsome. destruct Hsome; discriminate.
  - intros ds Hall.
    destruct (calls_served _ _ _ (flow_inv_alloc tcp h) Hall)
      as (t & w' & Hc & _ & _ & Hpar).
    exists t, w'. split; [exact Hc|].
    change (pending_connstate (Flow_alloc tcp h)) with (@None period_ref) in Hpar.
    rewrite (bool_decide_eq_false_2 (is_Some None)) in Hpar
      by (intros [? ?]; discriminate).
    rewrite xorb_false_l in Hpar. rewrite <- Hpar.
    symmetry. apply bool_decide_eq_true.
Qed.

Lemma C9_witness :
  pending_connstate flow1 = None \/
  (is_Some (pending_connstate flow1) /\ pending_connstate flow1 = connstate flow1).
Proof.
  exact (proj1 (proj2 (C9_pending_slot 7 heap0 flow1
                         (reachable_calls [1] flow0)))).
Defined.

(** ** Requests outside the protocol *)

(** C8, as the code has it: [next_connstate] checks who asks and nothing
    else. In every world the flow can reach, a request by one of its two
    directions returns a plex, whoever asked before; in particular a
    direction that has just been served is served again when it repeats its
    request. Only a request by a direction that is not the flow's own
    fails, with an assertion error. *)
Theorem C8_only_foreign_requests_fail (tcp : tcp_ref) (h : Heap)
    (w : World) (d : dir_ref) :
  reachable (Flow_alloc tcp h) w ->
  (owned w d -> exists p w', next_connstate d w = (Ok p, w')) /\
  (forall p w1, next_connstate d w = (Ok p, w1) ->
     exists q w2, next_connstate d w1 = (Ok q, w2)) /\
  (fails_loudly d w <-> ~ owned w d) /\
  (~ owned w d -> next_connstate d w = (Raise AssertionError, w)).
Proof.
  intros Hr.
  pose proof (flow_inv_reachable _ _ _ (flow_inv_alloc tcp h) Hr) as Hinv.
  assert (Hserved : owned w d -> exists p w', next_connstate d w = (Ok p, w')).
  { intros Hd. destruct (flow_inv_served _ _ _ Hinv Hd) as (p & w' & Hs & _).
    eauto. }
  split; [exact Hserved|]. split; [|split].
  - intros p w1 Hs.
    assert (Hd : owned w d).
    { destruct (decide (owned w d)) as [Hd|Hn]; [exact Hd|].
      rewrite (next_connstate_not_owned _ _ Hn) in Hs. discriminate. }
    destruct (step_fwd_rev _ _ _ _ Hs) as [Ef Er].
    assert (Hd1 : owned w1 d) by (unfold owned; rewrite Ef, Er; exact Hd).
    destruct (flow_inv_served _ _ _ (flow_inv_step _ _ _ _ _ Hs Hinv) Hd1)
      as (q & w2 & Hs2 & _).
    eauto.
  - split.
    + intros (e & w' & Hf) Hd. destruct (Hserved Hd) as (p & w'' & Hs).
      rewrite Hs in Hf. discriminate.
    + intros Hn. exists AssertionError, w. apply next_connstate_not_owned, Hn.
  - apply next_connstate_not_owned.
Qed.

Lemma C8_witness :
  exists p w', next_connstate 1 flow1 = (Ok p, w').
Proof.
  refine (proj1 (C8_only_foreign_requests_fail 7 heap0 flow1 1
                   (reachable_calls [1] flow0)) _).
  left. reflexivity.
Defined.

(** The statement of C8 as worded fails: the forward direction has asked and
    its period is pending; it asks again before the reverse direction has,
    and the request does not fail. *)
Lemma C8_counterexample :
  pending_connstate flow1 = Some 0 /\
  next_connstate (fwd flow0) flow1
    = (Ok (mkPlex 0 Forward), set_pending_connstate None flow1) /\
  ~ fails_loudly (fwd flow0) flow1.
Proof.
  split; [reflexivity|]. split; [reflexivity|].
  intros (e & w' & H). discriminate H.
Qed.

(** ** Alternating runs *)

Lemma pair_ind {A} (P : list A -> Prop) :
  P [] -> (forall x, P [x]) -> (forall x y l, P l -> P (x :: y :: l)) ->
  forall l, P l.
Proof.
  intros H0 H1 H2.
  assert (H : forall l, P l /\ forall x, P (x :: l)).
  { induction l as [|y l [IH1 IH2]]; split; auto. }
  intros l. apply H.
Qed.

Lemma alternates_pair f r d1 d2 ds :
  alternates f r (d1 :: d2 :: ds) = true ->
  ((d1 = f /\ d2 = r) \/ (d1 = r /\ d2 = f)) /\ alternates f r ds = true.
Proof.
  cbn [alternates]. intros H. apply andb_true_iff in H as [H1 H2].
  split; [|exact H2]. apply orb_true_iff in H1 as [H1|H1];
    apply bool_decide_eq_true in H1; auto.
Qed.

Lemma calls_alternates ds : forall w,
  pending_connstate w = None ->
  alternates (fwd w) (rev w) ds = true ->
  exists w',
    calls ds w = (Ok (expected (fwd w) (length (heap_periods w)) ds), w') /\
    length (heap_periods w')
      = length (heap_periods w) + Nat.div2 (S (length ds)) /\
    forall i, length (heap_periods w) <= i < length (heap_periods w') ->
      exists prev, heap_periods w' !! i = Some (period_at i prev).
Proof.
  induction ds as [|d|d1 d2 ds IH] using pair_ind; intros w Hp Halt.
  - exists w. cbn. split; [reflexivity|]. split; [lia|]. intros i Hi. lia.
  - cbn in Halt. apply bool_decide_eq_true in Halt.
    exists (opened w). rewrite calls_cons, (next_connstate_open _ _ Halt Hp).
    cbn. rewrite length_app. cbn. split; [reflexivity|]. split; [lia|].
    intros i Hi. assert (i = length (heap_periods w)) as -> by lia.
    rewrite lookup_app_r by lia. rewrite Nat.sub_diag. cbn. eauto.
  - apply alternates_pair in Halt as [Hpair Halt].
    assert (Ho1 : owned w d1) by (unfold owned; destruct Hpair as [[? ?]|[? ?]]; auto).
    assert (Ho2 : owned w d2) by (unfold owned; destruct Hpair as [[? ?]|[? ?]]; auto).
    pose proof (calls_pair _ _ _ Hp Ho1 Ho2) as Hc2.
    rewrite calls_cons in Hc2. rewrite (next_connstate_open _ _ Ho1 Hp) in Hc2.
    rewrite calls_cons in Hc2.
    destruct (next_connstate d2 (opened w)) as [[p2|e2] w2] eqn:Hs2;
      [|discriminate]. cbn in Hc2. injection Hc2 as -> ->.
    destruct (IH (set_pending_connstate None (opened w))) as (w' & Hc & Hlen & Hobj);
      [reflexivity|exact Halt|].
    assert (Hw' : reachable (set_pending_connstate None (opened w)) w').
    { pose proof (reachable_calls ds (set_pending_connstate None (opened w))) as Hr'.
      rewrite Hc in Hr'. exact Hr'. }
    destruct (reachable_extends _ _ Hw') as [_ Hpre].
    exists w'. rewrite calls_cons, (next_connstate_open _ _ Ho1 Hp).
    rewrite calls_cons, Hs2. cbn in Hc. rewrite length_app in Hc. cbn in Hc.
    rewrite Nat.add_1_r in Hc. rewrite Hc.
    cbn in Hlen. rewrite length_app in Hlen. cbn in Hlen.
    split; [reflexivity|]. split; [cbn; lia|].
    intros i Hi. destruct (decide (i = length (heap_periods w))) as [->|Hne].
    + exists (connstate w).
      eapply prefix_lookup_Some; [|exact Hpre].
      cbn. rewrite lookup_app_r by lia. rewrite Nat.sub_diag. reflexivity.
    + apply Hobj. cbn. rewrite length_app. cbn. lia.
Qed.

Lemma handed_none t p n :
  Forall (fun x => n <= plex_period (snd x)) t -> plex_period p < n ->
  handed t p = [].
Proof.
  intros Hall Hlt. induction Hall as [|[d q] t Hq _ IH]; [reflexivity|].
  cbn in *. rewrite decide_False; [exact IH|]. intros ->. lia.
Qed.

Lemma expected_bound f ds : forall n,
  Forall (fun x => n <= plex_period (snd x)) (expected f n ds).
Proof.
  induction ds as [|d|d1 d2 ds IH] using pair_ind; intros n; cbn.
  - constructor.
  - repeat constructor.
  - constructor; [cbn; lia|]. constructor; [cbn; lia|].
    eapply Forall_impl; [apply (IH (S n))|]. cbn. intros x Hx. lia.
Qed.

Lemma handed_expected_later f n ds sd :
  handed (expected f (S n) ds) (mkPlex n sd) = [].
Proof.
  apply (handed_none _ _ (S n)); [apply expected_bound|cbn; lia].
Qed.

(** A transition both directions have taken part in: each half of its
    period went out once, the forward plex to the forward direction and the
    reverse plex to the reverse direction. *)
Lemma handed_expected_complete f r ds : forall n k,
  f <> r -> alternates f r ds = true -> 2 * k + 1 < length ds ->
  handed (expected f n ds) (mkPlex (n + k) Forward) = [f] /\
  handed (expected f n ds) (mkPlex (n + k) Reverse) = [r].
Proof.
  induction ds as [|d|d1 d2 ds IH] using pair_ind; intros n k Hne Halt Hk;
    [cbn in Hk; lia|cbn in Hk; lia|].
  apply alternates_pair in Halt as [Hpair Halt].
  cbn [expected handed]. unfold plex_for.
  destruct k as [|k].
  - rewrite Nat.add_0_r, !handed_expected_later.
    destruct Hpair as [[-> ->]|[-> ->]].
    + rewrite (decide_True (P := f = f)) by reflexivity.
      rewrite (decide_False (P := r = f)) by congruence.
      repeat case_decide; try discriminate; try contradiction; auto.
    + rewrite (decide_True (P := f = f)) by reflexivity.
      rewrite (decide_False (P := r = f)) by congruence.
      repeat case_decide; try discriminate; try contradiction; auto.
  - rewrite !decide_False by (intros [= E _]; lia).
    rewrite <- Nat.add_succ_comm. apply IH; [exact Hne|exact Halt|].
    cbn in Hk. lia.
Qed.

(** A transition still awaiting its second request: the half of its period
    that went out went to the direction that asked, the other half to
    nobody. *)
Lemma handed_expected_trailing f r ds : forall n d,
  alternates f r ds = true -> Nat.odd (length ds) = true -> last ds = Some d ->
  handed (expected f n ds) (plex_for f d (n + Nat.div2 (length ds))) = [d] /\
  handed (expected f n ds)
         (mkPlex (n + Nat.div2 (length ds))
                 (if decide (d = f) then Reverse else Forward)) = [].
Proof.
  induction ds as [|d0|d1 d2 ds IH] using pair_ind; intros n d Halt Hodd Hlast.
  - discriminate.
  - injection Hlast as ->. cbn. rewrite Nat.add_0_r.
    rewrite decide_True by reflexivity. split; [reflexivity|].
    unfold plex_for. rewrite decide_False; [reflexivity|].
    destruct (decide (d = f)); discriminate.
  - apply alternates_pair in Halt as [_ Halt].
    cbn [length] in Hodd. rewrite Nat.odd_succ, Nat.even_succ in Hodd.
    assert (Hl : last ds = Some d).
    { destruct ds as [|x ds']; [discriminate|]. exact Hlast. }
    cbn [expected handed length Nat.div2].
    repeat match goal with
           | |- context [decide (plex_for f ?x n = ?q)] =>
               rewrite (decide_False (P := plex_for f x n = q))
                 by (intros E; apply (f_equal plex_period) in E; cbn in E;
                     revert E; generalize (Nat.div2 (length ds)); lia)
           end.
    rewrite <- Nat.add_succ_comm. apply IH; assumption.
Qed.

Lemma div2_succ_lower k n : 2 * k + 1 < n -> k < Nat.div2 (S n).
Proof.
  intros H. rewrite Nat.div2_div. apply Nat.div_le_lower_bound; lia.
Qed.

Lemma div2_succ_odd n : Nat.odd n = true -> Nat.div2 (S n) = S (Nat.div2 n).
Proof.
  intros H. pose proof (Nat.div2_odd n) as E1.
  pose proof (Nat.div2_odd (S n)) as E2.
  rewrite H in E1. rewrite Nat.odd_succ, <- Nat.negb_odd, H in E2.
  change (Nat.b2n true) with 1 in E1. change (Nat.b2n (negb true)) with 0 in E2.
  revert E1 E2. generalize (Nat.div2 n) (Nat.div2 (S n)). intros a b. lia.
Qed.

(** C3, as the code has it: a run of [n] requests that alternates correctly,
    started with nothing pending, creates ceil(n/2) periods. Every period
    whose transition both directions have taken part in has its forward plex
    returned once, to the forward direction, and its reverse plex once, to
    the reverse direction. When [n] is odd the last period still awaits its
    second request: the half that belongs to the direction that asked has
    been returned, once and to it, and the other half to nobody yet. *)
Theorem C3_two_per_completed_epoch (w : World) (ds : list dir_ref) :
  pending_connstate w = None -> fwd w <> rev w ->
  alternates (fwd w) (rev w) ds = true ->
  exists t w',
    calls ds w = (Ok t, w') /\
    fst <$> t = ds /\
    length (heap_periods w') = length (heap_periods w) + (length ds + 1) / 2 /\
    (forall k, 2 * k + 1 < length ds ->
       exists period,
         heap_periods w' !! (length (heap_periods w) + k) = Some period /\
         handed t (period_fwd period) = [fwd w] /\
         handed t (period_rev period) = [rev w]) /\
    (forall d, Nat.odd (length ds) = true -> last ds = Some d ->
       exists period,
         heap_periods w' !! (length (heap_periods w) + length ds / 2)
           = Some period /\
         handed t (if decide (d = fwd w) then period_fwd period
                   else period_rev period) = [d] /\
         handed t (if decide (d = fwd w) then period_rev period
                   else period_fwd period) = []).
Proof.
  intros Hp Hne Halt.
  destruct (calls_alternates ds w Hp Halt) as (w' & Hc & Hlen & Hobj).
  exists (expected (fwd w) (length (heap_periods w)) ds), w'.
  split; [exact Hc|]. split; [|split; [|split]].
  - clear. generalize (length (heap_periods w)).
    induction ds as [|d|d1 d2 ds IH] using pair_ind; intros n; cbn;
      [reflexivity|reflexivity|]. f_equal. f_equal. apply IH.
  - rewrite Hlen, Nat.add_1_r, Nat.div2_div. reflexivity.
  - intros k Hk.
    pose proof (div2_succ_lower _ _ Hk) as Hk2.
    destruct (Hobj (length (heap_periods w) + k)) as [prev Hl].
    { rewrite Hlen. revert Hk2. generalize (Nat.div2 (S (length ds))). lia. }
    exists (period_at (length (heap_periods w) + k) prev).
    split; [exact Hl|]. cbn.
    apply handed_expected_complete; assumption.
  - intros d Hodd Hlast. rewrite <- Nat.div2_div.
    pose proof (div2_succ_odd _ Hodd) as Hk2.
    destruct (Hobj (length (heap_periods w) + Nat.div2 (length ds)))
      as [prev Hl].
    { rewrite Hlen, Hk2. generalize (Nat.div2 (length ds)). lia. }
    exists (period_at (length (heap_periods w) + Nat.div2 (length ds)) prev).
    split; [exact Hl|].
    destruct (handed_expected_trailing (fwd w) (rev w) ds
                (length (heap_periods w)) d Halt Hodd Hlast) as [H1 H2].
    unfold plex_for in H1. cbn.
    destruct (decide (d = fwd w)); auto.
Qed.

Lemma C3_witness :
  exists t w',
    calls [1; 2; 2; 1; 2] flow0 = (Ok t, w') /\ length (heap_periods w') = 3.
Proof.
  destruct (C3_two_per_completed_epoch flow0 [1; 2; 2; 1; 2])
    as (t & w' & Hc & _ & Hlen & _).
  - reflexivity.
  - discriminate.
  - reflexivity.
  - exists t, w'. split; [exact Hc|exact Hlen].
Defined.

(** The statement of C3 as worded fails on a run of one request: the forward
    direction asks, one period is created, and its reverse plex has been
    returned to no direction. *)
Lemma C3_counterexample :
  pending_connstate flow0 = None /\
  alternates (fwd flow0) (rev flow0) [fwd flow0] = true /\
  ~ exactly_two_per_epoch flow0 [fwd flow0].
Proof.
  split; [reflexivity|]. split; [reflexivity|].
  intros (t & w' & Hc & _ & H).
  vm_compute in Hc. injection Hc as <- <-.
  destruct (H 0 (period_at 0 None)) as (d1 & d2 & _ & _ & H2);
    [cbn; lia|reflexivity|].
  discriminate H2.
Qed.

(** ** A request repeated by the same direction *)

Lemma fresh_from_step b w d q w' :
  fresh_from b w -> next_connstate d w = (Ok q, w') ->
  b <= plex_period q /\ fresh_from b w'.
Proof.
  intros [Hb Hpend] Hs. apply next_connstate_cases in Hs.
  destruct Hs as [[_ [e He]]|[(_ & Hp & -> & Hq)|(_ & -> & p & period & Hp & Hl & Hq)]].
  - discriminate.
  - injection Hq as ->. split; [exact Hb|].
    unfold fresh_from. cbn. rewrite length_app. cbn. split; [lia|].
    split; [exact Hb|]. exists (connstate w).
    rewrite lookup_app_r by lia. rewrite Nat.sub_diag. reflexivity.
  - rewrite Hp in Hpend. destruct Hpend as [Hbp [prev Hl']].
    rewrite Hl in Hl'. injection Hl' as ->. injection Hq as ->.
    split; [destruct (decide (d = fwd w)); exact Hbp|].
    split; [exact Hb|exact I].
Qed.

Lemma fresh_from_calls b ds : forall w t w',
  fresh_from b w -> calls ds w = (Ok t, w') ->
  Forall (fun x => b <= plex_period (snd x)) t.
Proof.
  induction ds as [|d ds IH]; intros w t w' Hf Hc.
  - injection Hc as <- _. constructor.
  - rewrite calls_cons in Hc.
    destruct (next_connstate d w) as [[q|e] w1] eqn:Hs; [|discriminate].
    destruct (calls ds w1) as [[t1|e] w2] eqn:Hc1; [|discriminate].
    injection Hc as <- _.
    destruct (fresh_from_step _ _ _ _ _ Hf Hs) as [Hq Hf1].
    constructor; [exact Hq|]. exact (IH _ _ _ Hf1 Hc1).
Qed.

(** C10, as the code has it: a direction [d] of the flow asks when nothing
    is pending and asks again before the other direction has. The second
    request raises nothing, returns the plex the first returned and clears
    the pending slot. The next request of a direction [o] of the flow then
    opens a new period, the successor of the skipped one, and no later
    request, by whichever direction, ever returns a plex of the skipped
    period. *)
Theorem C10_repeated_request (w : World) (d o : dir_ref) :
  pending_connstate w = None -> owned w d -> owned w o ->
  exists p w1 w2 q w3,
    next_connstate d w = (Ok p, w1) /\
    pending_connstate w1 = Some (plex_period p) /\
    next_connstate d w1 = (Ok p, w2) /\
    pending_connstate w2 = None /\
    next_connstate o w2 = (Ok q, w3) /\
    heap_periods w3
      = heap_periods w2
          ++ [period_at (S (plex_period p)) (Some (plex_period p))] /\
    plex_period q = S (plex_period p) /\
    forall ds t w4, calls ds w2 = (Ok t, w4) ->
      forall x, x ∈ t -> plex_period (snd x) <> plex_period p.
Proof.
  intros Hp Hd Ho.
  set (n := length (heap_periods w)).
  exists (plex_for (fwd w) d n), (opened w),
    (set_pending_connstate None (opened w)),
    (plex_for (fwd w) o (S n)),
    (opened (set_pending_connstate None (opened w))).
  assert (Hl : heap_periods (opened w) !! n = Some (period_at n (connstate w))).
  { cbn. rewrite lookup_app_r by lia. unfold n. rewrite Nat.sub_diag.
    reflexivity. }
  split; [apply next_connstate_open; assumption|].
  split; [reflexivity|]. split.
  { rewrite (next_connstate_close (opened w) d n _ Hd eq_refl Hl).
    unfold plex_for. cbn. destruct (decide (d = fwd w)); reflexivity. }
  split; [reflexivity|]. split.
  { rewrite (next_connstate_open (set_pending_connstate None (opened w)) o Ho eq_refl).
    cbn. rewrite length_app. cbn. rewrite Nat.add_1_r. reflexivity. }
  split.
  { cbn. rewrite length_app. cbn. rewrite Nat.add_1_r. reflexivity. }
  split; [reflexivity|].
  intros ds t w4 Hc x Hx.
  assert (Hf : fresh_from (S n) (set_pending_connstate None (opened w))).
  { split; [|exact I]. cbn. rewrite length_app. cbn. lia. }
  pose proof (fresh_from_calls _ _ _ _ _ Hf Hc) as Hall.
  rewrite Forall_forall in Hall. specialize (Hall x Hx). cbn. lia.
Qed.

Lemma C10_witness :
  exists p w1 w2,
    next_connstate 2 flow0 = (Ok p, w1) /\
    next_connstate 2 w1 = (Ok p, w2) /\
    pending_connstate w2 = None.
Proof.
  destruct (C10_repeated_request flow0 2 1)
    as (p & w1 & w2 & q & w3 & H1 & _ & H2 & H3 & _).
  - reflexivity.
  - right. reflexivity.
  - left. reflexivity.
  - exists p, w1, w2. auto.
Defined.

(** The statement of C10 as worded fails when the first of the two requests
    closes a transition. The forward direction has asked, as in the bootstrap
    of the flow; the reverse direction asks, which completes the first
    period, and asks again, as when it is the first to see the next change of
    cipher spec: its second request returns a plex of a new period, not the
    one its first request returned, and leaves that period pending. *)
Lemma C10_counterexample :
  owned flow1 (rev flow0) /\
  next_connstate (rev flow0) flow1
    = (Ok (mkPlex 0 Reverse), set_pending_connstate None flow1) /\
  next_connstate (rev flow0) (set_pending_connstate None flow1)
    = (Ok (mkPlex 1 Reverse), opened (set_pending_connstate None flow1)) /\
  ~ repeat_returns_same (rev flow0) flow1.
Proof.
  split; [right; reflexivity|]. split; [reflexivity|]. split; [reflexivity|].
  intros (p & w1 & w2 & H1 & H2 & H3).
  vm_compute in H1. injection H1 as <- <-.
  vm_compute in H2. discriminate H2.
Qed.

(** * Further properties of the flow *)

(** ** How a request can fail *)

Lemma next_connstate_raises w d e w' :
  next_connstate d w = (Raise e, w') ->
  w' = w /\
  ((e = AssertionError /\ ~ owned w d) \/
   (e = InvalidRef /\ owned w d /\
    exists p, pending_connstate w = Some p /\ heap_periods w !! p = None)).
Proof.
  intros H. destruct (decide (owned w d)) as [Ho|Hn].
  - destruct (pending_connstate w) as [p|] eqn:Hp.
    + destruct (heap_periods w !! p) as [period|] eqn:Hl.
      * rewrite (next_connstate_close _ _ _ _ Ho Hp Hl) in H. discriminate.
      * rewrite (next_connstate_dangling _ _ _ Ho Hp Hl) in H.
        injection H as <- <-. split; [reflexivity|]. right. eauto 6.
    + rewrite (next_connstate_open _ _ Ho Hp) in H. discriminate.
  - rewrite (next_connstate_not_owned _ _ Hn) in H.
    injection H as <- <-. auto.
Qed.

(** X1: a request that raises leaves the flow exactly as it found it, and
    the exception is never an [AttributeError]: the helper [right_plex] is
    only run while a period is pending. In a world the flow can reach, the
    only exception is the [AssertionError] of a direction that is not the
    flow's own. *)
Theorem X1_failure_is_atomic (w : World) (d : dir_ref) (e : exn) (w' : World) :
  next_connstate d w = (Raise e, w') ->
  w' = w /\ e <> AttributeError /\
  (forall tcp h, reachable (Flow_alloc tcp h) w ->
     e = AssertionError /\ ~ owned w d).
Proof.
  intros H. apply next_connstate_raises in H as [-> Hcase].
  split; [reflexivity|]. split.
  - destruct Hcase as [[-> _]|[-> _]]; discriminate.
  - intros tcp h Hr. destruct Hcase as [[-> Hn]|(-> & Ho & p & Hp & Hl)];
      [auto|exfalso].
    pose proof (flow_inv_reachable _ _ _ (flow_inv_alloc tcp h) Hr) as Hinv.
    destruct (inv_pend _ _ Hinv) as [Hp'|[Hlt Hp']]; [congruence|].
    rewrite Hp in Hp'. injection Hp' as ->.
    pose proof (inv_objs _ _ Hinv (pred (length (heap_periods w)))) as Hobj.
    rewrite Hl in Hobj. assert (Hin : length (h_periods h)
      <= pred (length (heap_periods w)) < length (heap_periods w)) by lia.
    specialize (Hobj Hin). discriminate.
Qed.

Lemma X1_witness :
  snd (next_connstate 0 flow1) = flow1.
Proof.
  exact (proj1 (X1_failure_is_atomic flow1 0 AssertionError flow1 eq_refl)).
Defined.

(** ** What a served request returns *)

(** X2: in a world the flow can reach, whoever asks and in whatever order,
    the plex a served request returns is a half of the period that is
    current once the request returns: the forward half if the forward
    direction asked, the reverse half otherwise. *)
Theorem X2_served_plex_is_of_current (tcp : tcp_ref) (h : Heap)
    (w : World) (d : dir_ref) (p : ConnStatePlex) (w' : World) :
  reachable (Flow_alloc tcp h) w ->
  next_connstate d w = (Ok p, w') ->
  connstate w' = Some (plex_period p) /\
  plex_side p = (if decide (d = fwd w') then Forward else Reverse) /\
  exists period,
    heap_periods w' !! plex_period p = Some period /\
    p = (if decide (d = fwd w') then period_fwd period else period_rev period) /\
    period_fwd period <> period_rev period.
Proof.
  intros Hr Hs.
  pose proof (flow_inv_reachable _ _ _ (flow_inv_alloc tcp h) Hr) as Hinv.
  pose proof (flow_inv_step _ _ _ _ _ Hs Hinv) as Hinv'.
  apply next_connstate_cases in Hs.
  destruct Hs as [[_ [e He]]|[(_ & Hp & -> & Hq)|(_ & -> & q & period & Hp & Hl & Hq)]].
  - discriminate.
  - injection Hq as ->. cbn. split; [reflexivity|]. split; [reflexivity|].
    exists (period_at (length (heap_periods w)) (connstate w)).
    rewrite lookup_app_r by lia. rewrite Nat.sub_diag.
    split; [reflexivity|]. unfold plex_for.
    split; [destruct (decide (d = fwd w)); reflexivity|discriminate].
  - destruct (inv_pend _ _ Hinv) as [Hp'|[Hlt Hp']]; [congruence|].
    rewrite Hp in Hp'. injection Hp' as ->.
    assert (Hin : length (h_periods h)
      <= pred (length (heap_periods w)) < length (heap_periods w)) by lia.
    rewrite (inv_objs _ _ Hinv _ Hin) in Hl. injection Hl as <-.
    injection Hq as ->. cbn.
    rewrite (inv_cur _ _ Hinv), decide_False by lia.
    destruct (decide (d = fwd w)); cbn;
      (split; [reflexivity|]); (split; [reflexivity|]);
      (eexists; split; [exact (inv_objs _ _ Hinv _ Hin)|]);
      (split; [reflexivity|discriminate]).
Qed.

Lemma X2_witness :
  connstate (snd (next_connstate 1 flow1)) = Some 0.
Proof.
  exact (proj1 (X2_served_plex_is_of_current 7 heap0 flow1 1
                  (mkPlex 0 Forward) _ (reachable_calls [1] flow0) eq_refl)).
Defined.

(** ** Induction over the life of a flow *)

Lemma change_served w d r w' :
  on_change_cipher_spec d w = (r, w') ->
  (exists e, next_connstate d w = (Raise e, w') /\ r = Raise e) \/
  (exists p w1, next_connstate d w = (Ok p, w1) /\
     w' = install_plex d p w1 /\ r = Ok tt).
Proof.
  unfold on_change_cipher_spec, bind, modify.
  destruct (next_connstate d w) as [[p|e] w1]; intros [= <- <-]; eauto 7.
Qed.

Lemma reachable_invariant (P : World -> Prop) w0 :
  P w0 ->
  (forall w d r w', P w -> next_connstate d w = (r, w') -> P w') ->
  (forall w d p w1, P w -> next_connstate d w = (Ok p, w1) -> P w1 ->
     P (install_plex d p w1)) ->
  forall w, reachable w0 w -> P w.
Proof.
  intros H0 Hstep Hinst w Hr.
  induction Hr as [|w d r w' _ IH Hs|w d r w' _ IH Hs]; [exact H0| |].
  - exact (Hstep _ _ _ _ IH Hs).
  - apply change_served in Hs as [(e & Hs & _)|(p & w1 & Hs & -> & _)].
    + exact (Hstep _ _ _ _ IH Hs).
    + exact (Hinst _ _ _ _ IH Hs (Hstep _ _ _ _ IH Hs)).
Qed.

(** ** The current period *)

(** X3: the flow has no current period exactly as long as it has created
    none. Once there is one it is the newest period the flow has created,
    and there is one ever after: later requests can only move the current
    period forward, and every served request leaves one in place. *)
Theorem X3_current_period (tcp : tcp_ref) (h : Heap) (w : World) :
  reachable (Flow_alloc tcp h) w ->
  (connstate w = None <-> heap_periods w = h_periods h) /\
  (forall c, connstate w = Some c ->
     S c = length (heap_periods w) /\ length (h_periods h) <= c) /\
  (forall w' c, reachable w w' -> connstate w = Some c ->
     exists c', connstate w' = Some c' /\ c <= c') /\
  (forall d p w', next_connstate d w = (Ok p, w') -> is_Some (connstate w')).
Proof.
  intros Hr.
  pose proof (flow_inv_reachable _ _ _ (flow_inv_alloc tcp h) Hr) as Hinv.
  pose proof (inv_cur _ _ Hinv) as Hcur.
  pose proof (inv_base _ _ Hinv) as Hbase.
  destruct (reachable_extends _ _ Hr) as [_ Hpre0].
  change (heap_periods (Flow_alloc tcp h)) with (h_periods h) in Hpre0.
  assert (Hsome : forall c, connstate w = Some c ->
            S c = length (heap_periods w) /\ length (h_periods h) <= c).
  { intros c Hc. rewrite Hc in Hcur.
    destruct (decide (length (heap_periods w) = length (h_periods h)));
      [discriminate|]. injection Hcur as ->. lia. }
  split; [|split; [exact Hsome|split]].
  - split.
    + intros Hn. rewrite Hn in Hcur.
      destruct (decide (length (heap_periods w) = length (h_periods h)))
        as [E|]; [|discriminate].
      symmetry. apply prefix_length_eq; [exact Hpre0|lia].
    + intros E. rewrite Hcur, E. rewrite decide_True by reflexivity.
      reflexivity.
  - intros w' c Hr' Hc. destruct (Hsome c Hc) as [Hlen Hge].
    pose proof (flow_inv_reachable _ _ _ Hinv Hr') as Hinv'.
    destruct (reachable_extends _ _ Hr') as [_ Hpre].
    apply prefix_length in Hpre.
    exists (pred (length (heap_periods w'))).
    rewrite (inv_cur _ _ Hinv'), decide_False by lia. split; [reflexivity|lia].
  - intros d p w' Hs.
    pose proof (flow_inv_step _ _ _ _ _ Hs Hinv) as Hinv'.
    rewrite (inv_cur _ _ Hinv').
    apply next_connstate_cases in Hs.
    destruct Hs as [[_ [e He]]|[(_ & _ & -> & _)|(_ & -> & q & period & Hp & _)]].
    + discriminate.
    + cbn. rewrite length_app. cbn. rewrite decide_False by lia. eauto.
    + cbn. destruct (inv_pend _ _ Hinv) as [Hp'|[Hlt _]]; [congruence|].
      rewrite decide_False by lia. eauto.
Qed.

Lemma X3_witness :
  connstate flow1 = None <-> heap_periods flow1 = h_periods heap0.
Proof.
  exact (proj1 (X3_current_period 7 heap0 flow1 (reachable_calls [1] flow0))).
Defined.

(** ** The holder of the parameters to come *)

(** X4: the flow makes one parameter holder at construction and one more
    with every period it creates, and [pending_params] is always the newest
    of them; the holders that existed before the flow stay where they
    were. *)
Theorem X4_one_holder_per_period (tcp : tcp_ref) (h : Heap) (w : World) :
  reachable (Flow_alloc tcp h) w ->
  S (pending_params w) = length (heap_params w) /\
  length (heap_params w) + length (h_periods h)
    = S (length (h_params h)) + length (heap_periods w) /\
  h_params h `prefix_of` heap_params w.
Proof.
  revert w. apply reachable_invariant.
  - cbn. rewrite length_app. cbn. split; [lia|]. split; [lia|].
    apply prefix_app_r. reflexivity.
  - intros w d r w' (Hpp & Hlen & Hpre) Hs. apply next_connstate_cases in Hs.
    destruct Hs as [[-> _]|[(_ & _ & -> & _)|(_ & -> & _)]]; cbn; auto.
    rewrite !length_app. cbn. split; [lia|]. split; [lia|].
    apply prefix_app_r. exact Hpre.
  - intros w d p w1 _ _ H. exact H.
Qed.

Lemma X4_witness :
  S (pending_params flow1) = length (heap_params flow1).
Proof.
  exact (proj1 (X4_one_holder_per_period 7 heap0 flow1
                  (reachable_calls [1] flow0))).
Defined.

(** ** The flow and the objects around it *)

(** X5: the two directions a flow is built with are new objects, distinct
    from each other and from every direction that existed before, and stay
    the flow's directions for its whole life. Building the flow and serving
    its requests leave every period, holder and direction that existed
    before as it was, and a request by any of those earlier directions is
    refused with an assertion error. *)
Theorem X5_isolation (tcp : tcp_ref) (h : Heap) (w : World) :
  reachable (Flow_alloc tcp h) w ->
  fwd w = length (h_dirs h) /\ rev w = S (length (h_dirs h)) /\
  fwd w <> rev w /\
  length (heap_dirs w) = S (S (length (h_dirs h))) /\
  h_periods h `prefix_of` heap_periods w /\
  h_params h `prefix_of` heap_params w /\
  (forall i o, h_dirs h !! i = Some o -> heap_dirs w !! i = Some o) /\
  (forall d, d < length (h_dirs h) ->
     next_connstate d w = (Raise AssertionError, w)).
Proof.
  intros Hr.
  assert (Hfr : fwd w = length (h_dirs h) /\ rev w = S (length (h_dirs h))).
  { destruct (reachable_fwd_rev _ _ Hr) as [-> ->]. cbn.
    rewrite length_app. cbn. split; [reflexivity|lia]. }
  destruct Hfr as [Hf Hv].
  assert (Hdirs : length (heap_dirs w) = S (S (length (h_dirs h))) /\
            forall i o, h_dirs h !! i = Some o -> heap_dirs w !! i = Some o).
  { revert w Hr Hf Hv.
    assert (H : forall w, reachable (Flow_alloc tcp h) w ->
              fwd w = length (h_dirs h) /\ rev w = S (length (h_dirs h)) /\
              length (heap_dirs w) = S (S (length (h_dirs h))) /\
              forall i o, h_dirs h !! i = Some o -> heap_dirs w !! i = Some o).
    { apply reachable_invariant.
      - cbn. rewrite !length_app. cbn. split; [reflexivity|].
        split; [lia|]. split; [lia|]. intros i o Hi.
        rewrite <- app_assoc. apply lookup_app_l_Some. exact Hi.
      - intros w d r w' (Hf & Hv & Hlen & Hold) Hs.
        apply next_connstate_cases in Hs.
        destruct Hs as [[-> _]|[(_ & _ & -> & _)|(_ & -> & _)]]; cbn; auto.
      - intros w d p w1 (Hf & Hv & _) Hs (Hf1 & Hv1 & Hlen1 & Hold1).
        cbn. split; [exact Hf1|]. split; [exact Hv1|].
        split; [rewrite length_alter; exact Hlen1|].
        intros i o Hi. assert (Ho : owned w d).
        { destruct (decide (owned w d)) as [Ho|Hn]; [exact Ho|].
          rewrite (next_connstate_not_owned _ _ Hn) in Hs. discriminate. }
        apply lookup_lt_Some in Hi as Hlt.
        rewrite list_lookup_alter_ne; [apply Hold1; exact Hi|].
        destruct Ho as [->| ->]; lia. }
    intros w Hr _ _. apply H in Hr. tauto. }
  destruct Hdirs as [Hlen Hold].
  split; [exact Hf|]. split; [exact Hv|]. split; [lia|]. split; [exact Hlen|].
  split; [apply (reachable_extends _ _ Hr)|].
  split.
  { revert w Hr Hf Hv Hlen Hold. intros w Hr _ _ _ _. revert w Hr.
    apply reachable_invariant.
    - cbn. apply prefix_app_r. reflexivity.
    - intros w d r w' Hpre Hs. apply next_connstate_cases in Hs.
      destruct Hs as [[-> _]|[(_ & _ & -> & _)|(_ & -> & _)]]; cbn; auto.
      apply prefix_app_r. exact Hpre.
    - intros w d p w1 _ _ H. exact H. }
  split; [exact Hold|].
  intros d Hd. apply next_connstate_not_owned. intros [E|E]; lia.
Qed.

Lemma X5_witness :
  next_connstate 0 flow1 = (Raise AssertionError, flow1).
Proof.
  refine (proj2 (proj2 (proj2 (proj2 (proj2 (proj2 (proj2
            (X5_isolation 7 heap0 flow1 (reachable_calls [1] flow0))))))))
            0 _).
  cbn. lia.
Defined.

(** ** The chain of predecessors *)

Lemma history_chain ps n0 : forall k fuel,
  (forall i, n0 <= i < n0 + S k ->
     ps !! i = Some (period_at i (if decide (i = n0) then None else Some (pred i)))) ->
  k < fuel ->
  history ps fuel (Some (n0 + k)) = List.rev (seq n0 (S k)).
Proof.
  induction k as [|k IH]; intros fuel Hobj Hfuel;
    (destruct fuel as [|fuel]; [lia|]);
    rewrite seq_S, List.rev_app_distr; cbn [history List.rev app];
    (rewrite Hobj by lia); cbn [mbind option_bind period_at period_prev].
  - rewrite Nat.add_0_r. rewrite decide_True by lia.
    destruct fuel; reflexivity.
  - rewrite decide_False by lia. f_equal.
    replace (pred (n0 + S k)) with (n0 + k) by lia.
    apply IH; [|lia]. intros i Hi. apply Hobj. lia.
Qed.

(** X6: the predecessor references agree with [old_states]. Followed from
    the current period they lead through the retired periods, newest first,
    down to the first period of the flow, whose predecessor is [None]: the
    periods met are the current one and then [old_states] in reverse. *)
Theorem X6_history_is_old_states (tcp : tcp_ref) (h : Heap) (w : World)
    (fuel : nat) :
  reachable (Flow_alloc tcp h) w ->
  length (heap_periods w) <= fuel ->
  history (heap_periods w) fuel (connstate w)
    = List.rev (old_states w ++ option_list (connstate w)).
Proof.
  intros Hr Hfuel.
  pose proof (flow_inv_reachable _ _ _ (flow_inv_alloc tcp h) Hr) as Hinv.
  destruct Hinv as [Hb Ho Hc _ Hobj]. rewrite Ho, Hc.
  set (n0 := length (h_periods h)) in *.
  destruct (decide (length (heap_periods w) = n0)) as [E|Hne].
  - rewrite E, Nat.sub_diag. cbn. destruct fuel; reflexivity.
  - cbn [option_list].
    replace (pred (length (heap_periods w)))
      with (n0 + pred (length (heap_periods w) - n0)) by lia.
    rewrite <- seq_S. apply history_chain; [|lia].
    intros i Hi. apply Hobj. lia.
Qed.

Lemma X6_witness :
  history (heap_periods (snd (calls [1; 2; 2; 1; 1] flow0))) 3
          (connstate (snd (calls [1; 2; 2; 1; 1] flow0)))
    = [2; 1; 0].
Proof.
  refine (X6_history_is_old_states 7 heap0 _ 3
            (reachable_calls [1; 2; 2; 1; 1] flow0) _).
  vm_compute. lia.
Defined.

(** ** Pairing by position *)

Lemma expected_lookup f ds : forall n j d,
  ds !! j = Some d ->
  expected f n ds !! j = Some (d, plex_for f d (n + Nat.div2 j)).
Proof.
  induction ds as [|d0|d1 d2 ds IH] using pair_ind; intros n j d Hj.
  - discriminate.
  - destruct j as [|j]; [|discriminate]. injection Hj as ->.
    cbn. rewrite Nat.add_0_r. reflexivity.
  - destruct j as [|[|j]].
    + injection Hj as ->. cbn. rewrite Nat.add_0_r. reflexivity.
    + injection Hj as ->. cbn. rewrite Nat.add_0_r. reflexivity.
    + cbn [expected lookup list_lookup Nat.div2].
      rewrite <- Nat.add_succ_comm. apply IH. exact Hj.
Qed.

Lemma calls_positional ds : forall w,
  pending_connstate w = None -> Forall (owned w) ds ->
  exists w',
    calls ds w = (Ok (expected (fwd w) (length (heap_periods w)) ds), w') /\
    length (heap_periods w')
      = length (heap_periods w) + Nat.div2 (S (length ds)).
Proof.
  induction ds as [|d|d1 d2 ds IH] using pair_ind; intros w Hp Hall.
  - exists w. cbn. split; [reflexivity|lia].
  - apply Forall_cons in Hall as [Hd _].
    exists (opened w). rewrite calls_cons, (next_connstate_open _ _ Hd Hp).
    cbn. rewrite length_app. cbn. split; [reflexivity|lia].
  - apply Forall_cons in Hall as [Ho1 Hall].
    apply Forall_cons in Hall as [Ho2 Hall].
    pose proof (calls_pair _ _ _ Hp Ho1 Ho2) as Hc2.
    rewrite calls_cons in Hc2. rewrite (next_connstate_open _ _ Ho1 Hp) in Hc2.
    rewrite calls_cons in Hc2.
    destruct (next_connstate d2 (opened w)) as [[p2|e2] w2] eqn:Hs2;
      [|discriminate]. cbn in Hc2. injection Hc2 as -> ->.
    destruct (IH (set_pending_connstate None (opened w))) as (w' & Hc & Hlen);
      [reflexivity|exact Hall|].
    exists w'. rewrite calls_cons, (next_connstate_open _ _ Ho1 Hp).
    rewrite calls_cons, Hs2. cbn in Hc. rewrite length_app in Hc. cbn in Hc.
    rewrite Nat.add_1_r in Hc. rewrite Hc.
    cbn in Hlen. rewrite length_app in Hlen. cbn in Hlen.
    split; [reflexivity|]. cbn. lia.
Qed.

(** X7: which period a request is served from depends on its position in
    the run alone, not on who asks. In a run of requests by the flow's
    directions, in whatever order, started with nothing pending, no request
    fails, requests number [2k] and [2k+1] both receive a half of the [k]-th
    period the run creates, each the half that belongs to the direction that
    asks, and a run of [n] requests creates ceil(n/2) periods. *)
Theorem X7_pairing_by_position (w : World) (ds : list dir_ref) :
  pending_connstate w = None -> Forall (owned w) ds ->
  exists t w',
    calls ds w = (Ok t, w') /\
    length (heap_periods w') = length (heap_periods w) + (length ds + 1) / 2 /\
    forall j d, ds !! j = Some d ->
      t !! j = Some (d, mkPlex (length (heap_periods w) + j / 2)
                               (if decide (d = fwd w) then Forward else Reverse)).
Proof.
  intros Hp Hall.
  destruct (calls_positional ds w Hp Hall) as (w' & Hc & Hlen).
  exists (expected (fwd w) (length (heap_periods w)) ds), w'.
  split; [exact Hc|]. split.
  - rewrite Hlen, Nat.add_1_r, Nat.div2_div. reflexivity.
  - intros j d Hj. rewrite <- Nat.div2_div. apply expected_lookup. exact Hj.
Qed.

Lemma X7_witness :
  exists t w',
    calls [1; 1; 2; 2; 1] flow0 = (Ok t, w') /\
    t !! 3 = Some (2, mkPlex 1 Reverse).
Proof.
  destruct (X7_pairing_by_position flow0 [1; 1; 2; 2; 1])
    as (t & w' & Hc & _ & Hpos).
  - reflexivity.
  - repeat constructor; (left; reflexivity) || (right; reflexivity).
  - exists t, w'. split; [exact Hc|]. exact (Hpos 3 2 eq_refl).
Defined.

(** ** Changes of cipher spec *)

Lemma change_pair w d1 d2 :
  pending_connstate w = None -> owned w d1 -> owned w d2 ->
  (do on_change_cipher_spec d1 then on_change_cipher_spec d2) w =
    (Ok tt,
     install_plex d2 (plex_for (fwd w) d2 (length (heap_periods w)))
       (set_pending_connstate None
          (install_plex d1 (plex_for (fwd w) d1 (length (heap_periods w)))
             (opened w)))).
Proof.
  intros Hp Ho1 Ho2. unfold on_change_cipher_spec. unfold bind at 1.
  unfold bind at 1. rewrite (next_connstate_open _ _ Ho1 Hp).
  unfold modify at 1. unfold bind at 1.
  erewrite (next_connstate_close _ d2 (length (heap_periods w)));
    [| exact Ho2 | reflexivity
     | cbn; rewrite lookup_app_r by lia; rewrite Nat.sub_diag; reflexivity ].
  unfold modify, plex_for. cbn.
  destruct (decide (d2 = fwd w)); reflexivity.
Qed.

Lemma aligned_after_pair w d1 d2 :
  fwd w <> rev w ->
  fwd w < length (heap_dirs w) -> rev w < length (heap_dirs w) ->
  (d1 = fwd w /\ d2 = rev w) \/ (d1 = rev w /\ d2 = fwd w) ->
  aligned
    (install_plex d2 (plex_for (fwd w) d2 (length (heap_periods w)))
       (set_pending_connstate None
          (install_plex d1 (plex_for (fwd w) d1 (length (heap_periods w)))
             (opened w)))).
Proof.
  intros Hne Hf Hr Hpair.
  exists (length (heap_periods w)),
    (period_at (length (heap_periods w)) (connstate w)).
  destruct (lookup_lt_is_Some_2 _ _ Hf) as [o1 Hof].
  destruct (lookup_lt_is_Some_2 _ _ Hr) as [o2 Hor].
  cbn. split; [reflexivity|]. split.
  { rewrite lookup_app_r by lia. rewrite Nat.sub_diag. reflexivity. }
  unfold plex_for.
  destruct Hpair as [[-> ->]|[-> ->]].
  - rewrite (decide_True (P := fwd w = fwd w)) by reflexivity.
    rewrite (decide_False (P := rev w = fwd w))
      by (intros E; apply Hne; symmetry; exact E).
    split.
    + rewrite list_lookup_alter_ne
        by (intros E; apply Hne; symmetry; exact E).
      rewrite list_lookup_alter_eq, Hof. reflexivity.
    + rewrite list_lookup_alter_eq.
      rewrite list_lookup_alter_ne by exact Hne. rewrite Hor. reflexivity.
  - rewrite (decide_True (P := fwd w = fwd w)) by reflexivity.
    rewrite (decide_False (P := rev w = fwd w))
      by (intros E; apply Hne; symmetry; exact E).
    split.
    + rewrite list_lookup_alter_eq.
      rewrite list_lookup_alter_ne
        by (intros E; apply Hne; symmetry; exact E).
      rewrite Hof. reflexivity.
    + rewrite list_lookup_alter_ne by exact Hne.
      rewrite list_lookup_alter_eq, Hor. reflexivity.
Qed.

Lemma changes_pair d1 d2 ds w :
  changes (d1 :: d2 :: ds) w =
    match (do on_change_cipher_spec d1 then on_change_cipher_spec d2) w with
    | (Ok _, w2) => changes ds w2
    | (Raise e, w2) => (Raise e, w2)
    end.
Proof.
  cbn [changes]. unfold bind.
  destruct (on_change_cipher_spec d1 w) as [[[]|e] w1]; [|reflexivity].
  destruct (on_change_cipher_spec d2 w1) as [[[]|e] w2]; reflexivity.
Qed.

Lemma changes_alternates ds : forall w,
  pending_connstate w = None -> fwd w <> rev w ->
  fwd w < length (heap_dirs w) -> rev w < length (heap_dirs w) ->
  alternates (fwd w) (rev w) ds = true -> Nat.even (length ds) = true ->
  exists w',
    changes ds w = (Ok tt, w') /\
    pending_connstate w' = None /\
    length (heap_periods w')
      = length (heap_periods w) + Nat.div2 (length ds) /\
    (ds <> [] -> aligned w').
Proof.
  induction ds as [|d|d1 d2 ds IH] using pair_ind;
    intros w Hp Hne Hf Hr Halt Hev.
  - exists w. cbn. split; [reflexivity|]. split; [exact Hp|].
    split; [lia|]. intros E. contradiction.
  - discriminate.
  - apply alternates_pair in Halt as [Hpair Halt].
    assert (Ho1 : owned w d1)
      by (unfold owned; destruct Hpair as [[? ?]|[? ?]]; auto).
    assert (Ho2 : owned w d2)
      by (unfold owned; destruct Hpair as [[? ?]|[? ?]]; auto).
    pose proof (aligned_after_pair w d1 d2 Hne Hf Hr Hpair) as Hal.
    rewrite changes_pair, (change_pair _ _ _ Hp Ho1 Ho2).
    set (w2 := install_plex d2 _ _) in *.
    destruct (IH w2) as (w' & Hc & Hp' & Hlen & Hal');
      [reflexivity|exact Hne| | |exact Halt|exact Hev|].
    + unfold w2. cbn. rewrite !length_alter. exact Hf.
    + unfold w2. cbn. rewrite !length_alter. exact Hr.
    + exists w'. split; [exact Hc|]. split; [exact Hp'|]. split.
      * rewrite Hlen. unfold w2. cbn. rewrite length_app. cbn. lia.
      * intros _. destruct ds as [|d ds]; [|apply Hal'; discriminate].
        injection Hc as <-. exact Hal.
Qed.

(** X8: renegotiation keeps the two directions in step. When nothing is
    pending and the directions then meet any number of changes of cipher
    spec, each change met once by either direction and in either order, no
    request fails, one period is created per change, nothing is left
    pending, and at the end the forward direction uses the forward plex and
    the reverse direction the reverse plex of the period that is then
    current. *)
Theorem X8_renegotiation_keeps_step (w : World) (ds : list dir_ref) :
  pending_connstate w = None -> fwd w <> rev w ->
  fwd w < length (heap_dirs w) -> rev w < length (heap_dirs w) ->
  alternates (fwd w) (rev w) ds = true -> Nat.even (length ds) = true ->
  ds <> [] ->
  exists w',
    changes ds w = (Ok tt, w') /\
    pending_connstate w' = None /\
    length (heap_periods w') = length (heap_periods w) + length ds / 2 /\
    aligned w'.
Proof.
  intros Hp Hne Hf Hr Halt Hev Hnil.
  destruct (changes_alternates ds w Hp Hne Hf Hr Halt Hev)
    as (w' & Hc & Hp' & Hlen & Hal).
  exists w'. split; [exact Hc|]. split; [exact Hp'|].
  split; [rewrite Hlen, Nat.div2_div; reflexivity|exact (Hal Hnil)].
Qed.

Lemma X8_witness :
  exists w', changes [1; 2; 2; 1] flow0 = (Ok tt, w') /\ aligned w'.
Proof.
  destruct (X8_renegotiation_keeps_step flow0 [1; 2; 2; 1])
    as (w' & Hc & _ & _ & Hal).
  - reflexivity.
  - discriminate.
  - cbn. lia.
  - cbn. lia.
  - reflexivity.
  - reflexivity.
  - discriminate.
  - exists w'. split; [exact Hc|exact Hal].
Defined.


(** ** Packets *)

Section PacketProcessing.
Variable packet : Type.
Variable tcp_add : tcp_ref -> packet -> M unit.
Variable tcp_finish : tcp_ref -> M unit.
Variable update_records : dir_ref -> M unit.

(** The collaborators act on the flow's epoch state through requests
    only: whatever they do, and whether they return or raise, they leave
    a world that requests lead to. *)
Hypothesis tcp_add_requests :
  forall t pkt w, reachable w (snd (tcp_add t pkt w)).
Hypothesis tcp_finish_requests :
  forall t w, reachable w (snd (tcp_finish t w)).
Hypothesis update_records_requests :
  forall d w, reachable w (snd (update_records d w)).





End PacketProcessing.


(** ** Who asks does not matter to the flow *)

Lemma served_world_independent n0 w d d' :
  flow_inv n0 w -> owned w d -> owned w d' ->
  exists p p' w1,
    next_connstate d w = (Ok p, w1) /\ next_connstate d' w = (Ok p', w1).
Proof.
  intros Hinv Hd Hd'. destruct (inv_pend _ _ Hinv) as [Hp|[Hlt Hp]].
  - eexists _, _, _. split; apply next_connstate_open; assumption.
  - assert (Hin : n0 <= pred (length (heap_periods w))
                  < length (heap_periods w)) by lia.
    pose proof (inv_objs _ _ Hinv _ Hin) as Hl.
    eexists _, _, _.
    split; eapply next_connstate_close; eassumption.
Qed.

(** X10: the state a run of requests leaves the flow in depends on how
    many requests were made, not on which of the flow's directions made
    them: two runs of the same length by the flow's directions, started in
    the same reachable world, both succeed and end in the same world. *)
Theorem X10_world_depends_on_count (tcp : tcp_ref) (h : Heap) (w : World)
    (ds ds' : list dir_ref) :
  reachable (Flow_alloc tcp h) w ->
  Forall (owned w) ds -> Forall (owned w) ds' -> length ds = length ds' ->
  exists t t' w',
    calls ds w = (Ok t, w') /\ calls ds' w = (Ok t', w').
Proof.
  intros Hr.
  pose proof (flow_inv_reachable _ _ _ (flow_inv_alloc tcp h) Hr) as Hinv.
  clear Hr. revert w Hinv ds'.
  induction ds as [|d ds IH]; intros w Hinv ds' Hall Hall' Hlen.
  - destruct ds' as [|d' ds']; [|discriminate]. exists [], [], w. auto.
  - destruct ds' as [|d' ds']; [discriminate|].
    apply Forall_cons in Hall as [Hd Hall].
    apply Forall_cons in Hall' as [Hd' Hall'].
    destruct (served_world_independent _ _ _ _ Hinv Hd Hd')
      as (p & p' & w1 & Hs & Hs').
    destruct (step_fwd_rev _ _ _ _ Hs) as [Ef Er].
    destruct (IH w1 (flow_inv_step _ _ _ _ _ Hs Hinv) ds')
      as (t & t' & w' & Hc & Hc').
    + eapply Forall_impl; [exact Hall|]. unfold owned. intros x.
      rewrite Ef, Er. auto.
    + eapply Forall_impl; [exact Hall'|]. unfold owned. intros x.
      rewrite Ef, Er. auto.
    + injection Hlen as Hlen. exact Hlen.
    + exists ((d, p) :: t), ((d', p') :: t'), w'.
      rewrite !calls_cons, Hs, Hs', Hc, Hc'. auto.
Qed.

Lemma X10_witness :
  exists t t' w',
    calls [1; 2; 2; 1] flow1 = (Ok t, w') /\
    calls [2; 2; 2; 1] flow1 = (Ok t', w').
Proof.
  apply (X10_world_depends_on_count 7 heap0 flow1 [1; 2; 2; 1] [2; 2; 2; 1]
           (reachable_calls [1] flow0)).
  - repeat constructor; (left; reflexivity) || (right; reflexivity).
  - repeat constructor; (left; reflexivity) || (right; reflexivity).
  - reflexivity.
Defined.
